(** * Gemini English Tutor: the live-conversation component

    A shallow embedding of [App.tsx] (and of [types.ts]): the microphone
    capture encoder, the playback scheduling done in [onmessage], the
    transcript aggregation, and the start / stop / error life cycle.

    Conventions of the embedding.
    - A JavaScript string is the list of its UTF-16 code units.
    - A JavaScript [number] holding a time in seconds is an exact rational:
      rounding of IEEE doubles is not modelled.  A [Float32Array] sample is a
      rational as well; multiplying a float32 by [32768 = 2^15] is exact in
      double precision, so the capture encoder is modelled without loss.
    - Every [useRef] cell and every [useState] cell is a field of one record,
      [App]; a handler is a function from [App] to [App].  Calls into the
      browser or the SDK that the program makes ([source.start], [track.stop],
      [session.close], ...) are appended to the field [trace].
    - A handler given as a function from [App] to [App] is one run of its
      body to the end, its [await] included.  Where the suspension matters
      the handler is split at the [await] ([stopConversation_begin],
      [stopConversation_resume]); where a statement can throw outside a
      [try] the handler is given with its exception ([onmessage_handler]). *)

From Stdlib Require Import Bool String Ascii ZArith QArith Qminmax Qabs Lia Lqa List.
Import ListNotations.

Local Open Scope Z_scope.

(* ================================================================== *)
(** * Definitions *)
(* ================================================================== *)

(** ** JavaScript strings *)

Definition jsstring := list Z.

(** A string literal of the source, as code units. *)
Definition lit (s : string) : jsstring :=
  map (fun a => Z.of_N (N_of_ascii a)) (list_ascii_of_string s).

(** ECMAScript [WhiteSpace] and [LineTerminator] code units, the ones
    [String.prototype.trim] strips. *)
Definition is_white_space (c : Z) : bool :=
  (c =? 9) || (c =? 10) || (c =? 11) || (c =? 12) || (c =? 13) || (c =? 32)
  || (c =? 160) || (c =? 5760) || ((8192 <=? c) && (c <=? 8202))
  || (c =? 8232) || (c =? 8233) || (c =? 8239) || (c =? 8287)
  || (c =? 12288) || (c =? 65279).

Fixpoint trimStart (s : jsstring) : jsstring :=
  match s with
  | [] => []
  | c :: rest => if is_white_space c then trimStart rest else s
  end.

Definition trimEnd (s : jsstring) : jsstring := rev (trimStart (rev s)).

Definition trim (s : jsstring) : jsstring := trimEnd (trimStart s).

(** Truthiness of a string: [if (str)] holds for the non-empty ones. *)
Definition truthy (s : jsstring) : bool :=
  match s with [] => false | _ :: _ => true end.

(** [str += x] where [x] may be [undefined]. *)
Definition str_of_optional (x : option jsstring) : jsstring :=
  match x with Some t => t | None => lit "undefined" end.

(** ** types.ts *)

Inductive Speaker := You | Teacher.

Record TranscriptEntry := { speaker : Speaker; text : jsstring }.

Inductive Status := idle | connecting | listening | speaking | error.

(** ** The capture encoder ([onaudioprocess], lines 120-137) *)

(** Truncation towards zero, the first step of every ECMAScript
    number-to-integer conversion. *)
Definition Qtrunc (x : Q) : Z := Z.quot (Qnum x) (Z.pos (Qden x)).

(** ECMAScript [ToInt16], the conversion a store into an [Int16Array]
    applies: truncate, reduce modulo [2^16], re-centre. *)
Definition ToInt16 (x : Q) : Z :=
  let int16bit := Qtrunc x mod 65536 in
  if 32768 <=? int16bit then int16bit - 65536 else int16bit.

(** [int16[i] = inputData[i] * 32768] for every index. *)
Definition pcm_sample (x : Q) : Z := ToInt16 (x * 32768)%Q.

Definition pcm_samples (inputData : list Q) : list Z := map pcm_sample inputData.

(** [new Uint8Array(int16.buffer)]: the two bytes of each element, low byte
    first. *)
Definition int16_bytes (v : Z) : list Z :=
  let u := v mod 65536 in [u mod 256; u / 256].

Definition Uint8Array_of_Int16Array (int16 : list Z) : list Z :=
  flat_map int16_bytes int16.

(** ** utils/audio

    The module [./utils/audio] ([encode], [decode], [decodeAudioData]) is not
    part of the sources. *)

Definition b64_char (n : Z) : Z :=
  if n <? 26 then 65 + n
  else if n <? 52 then 71 + n
  else if n <? 62 then n - 4
  else if n =? 62 then 43 else 47.

Definition b64_value (c : Z) : option Z :=
  if (65 <=? c) && (c <=? 90) then Some (c - 65)
  else if (97 <=? c) && (c <=? 122) then Some (c - 71)
  else if (48 <=? c) && (c <=? 57) then Some (c + 4)
  else if c =? 43 then Some 62
  else if c =? 47 then Some 63
  else None.

(** Code unit of the padding character. *)
Definition b64_pad : Z := 61.

(** Modelled from the spec: [encode] of utils/audio is missing; section 4.1
    says the little-endian bytes are "wrapped in a transport-safe text
    encoding (e.g., base64)".  This is standard base64 with padding. *)
Fixpoint encode (bytes : list Z) : jsstring :=
  match bytes with
  | [] => []
  | [a] =>
      [b64_char (a / 4); b64_char ((a mod 4) * 16); b64_pad; b64_pad]
  | [a; b] =>
      [b64_char (a / 4); b64_char ((a mod 4) * 16 + b / 16);
       b64_char ((b mod 16) * 4); b64_pad]
  | a :: b :: c :: rest =>
      b64_char (a / 4) :: b64_char ((a mod 4) * 16 + b / 16)
      :: b64_char ((b mod 16) * 4 + c / 64) :: b64_char (c mod 64)
      :: encode rest
  end.

(** Modelled from the spec: [decode] of utils/audio is missing; section 4.1
    says "inbound chunks are the inverse" of the outbound text encoding.
    [None] stands for the exception on text that is not base64. *)
Fixpoint decode (s : jsstring) : option (list Z) :=
  match s with
  | [] => Some []
  | c0 :: c1 :: c2 :: c3 :: rest =>
      match b64_value c0, b64_value c1 with
      | Some v0, Some v1 =>
          let b0 := v0 * 4 + v1 / 16 in
          if c2 =? b64_pad then
            match rest with
            | [] => if c3 =? b64_pad then Some [b0] else None
            | _ :: _ => None
            end
          else
            match b64_value c2 with
            | Some v2 =>
                let b1 := (v1 mod 16) * 16 + v2 / 4 in
                if c3 =? b64_pad then
                  match rest with
                  | [] => Some [b0; b1]
                  | _ :: _ => None
                  end
                else
                  match b64_value c3, decode rest with
                  | Some v3, Some tail =>
                      Some (b0 :: b1 :: (v2 mod 4) * 64 + v3 :: tail)
                  | _, _ => None
                  end
            | None => None
            end
      | _, _ => None
      end
  | _ => None
  end.

(** A Web Audio [AudioBuffer], mono: its samples and its sample rate. *)
Record AudioBuffer := { channelData : list Q; sampleRate : positive }.

(** [AudioBuffer.duration]: number of sample-frames over the sample rate. *)
Definition duration (b : AudioBuffer) : Q :=
  Z.of_nat (length (channelData b)) # sampleRate b.

(** Reading a byte buffer as an [Int16Array], low byte first; [None] when the
    byte count is odd. *)
Fixpoint Int16Array_of_bytes (bytes : list Z) : option (list Z) :=
  match bytes with
  | [] => Some []
  | [_] => None
  | lo :: hi :: rest =>
      match Int16Array_of_bytes rest with
      | Some tail =>
          let u := lo + 256 * hi in
          Some ((if 32768 <=? u then u - 65536 else u) :: tail)
      | None => None
      end
  end.

(** Modelled from the spec: [decodeAudioData] of utils/audio is missing;
    section 4.1 says decoding "reinterprets raw bytes as 16-bit samples and
    rescales to float32 in [-1,1] at a fixed target sample rate (24 kHz,
    mono) before buffer construction", and that an odd byte count "fails with
    CodecError" (here [None]). *)
Definition decodeAudioData (data : list Z) (rate : positive)
  : option AudioBuffer :=
  match Int16Array_of_bytes data with
  | Some int16 =>
      Some {| channelData := map (fun v => (inject_Z v / 32768)%Q) int16;
              sampleRate := rate |}
  | None => None
  end.

(** The outbound [Blob] of @google/genai. *)
Record Blob := { data : jsstring; mimeType : jsstring }.

(** [onaudioprocess]: the [pcmBlob] built from one block of microphone
    samples (it is then handed to [session.sendRealtimeInput]). *)
Definition onaudioprocess (inputData : list Q) : Blob :=
  let int16 := pcm_samples inputData in
  {| data := encode (Uint8Array_of_Int16Array int16);
     mimeType := lit "audio/pcm;rate=16000" |}.

(** The codec of section 4.1.  [toTransportEncoding] is the payload the
    capture encoder produces. *)
Definition toTransportEncoding (samples : list Q) : jsstring :=
  data (onaudioprocess samples).

(** Modelled from the spec: [fromTransportEncoding] is the inbound direction
    of section 4.1, the composition of the missing [decode] and
    [decodeAudioData]. *)
Definition fromTransportEncoding (s : jsstring) : option (list Q) :=
  match decode s with
  | Some bytes => option_map channelData (decodeAudioData bytes 24000)
  | None => None
  end.

(** ** Browser and SDK objects the component holds *)

(** What a call that may throw produces.  [Throw] carries [error.message]. *)
Inductive Result (A : Type) : Type :=
| Return (a : A)
| Throw (message : jsstring).

Arguments Return {A} a.
Arguments Throw {A} message.

(** Identity of an [AudioBufferSourceNode]: the nodes are numbered in the
    order [createBufferSource] makes them. *)
Definition SourceId := Z.

(** [AudioContextState] of the Web Audio API. *)
Inductive AudioContextState := suspended | running | closed.

Record AudioContext := {
  contextRate : positive;
  contextState : AudioContextState
}.

(** [AudioContext.currentTime]: the sample-frames the context has rendered so
    far, over its sample rate.  The frame count is the environment's. *)
Definition currentTime (ctx : AudioContext) (frames : N) : Q :=
  Z.of_N frames # contextRate ctx.

(** A [MediaStream] is the list of its tracks. *)
Record MediaStream := { getTracks : list Z }.

Record ScriptProcessorNode := { bufferSize : Z }.

(** The SDK session: what its [close()] does when called. *)
Record Session := { close : Result unit }.

(** The settled outcome of the promise [ai.live.connect] returns. *)
Definition SessionPromise := Result Session.

(** Calls the component makes on objects it does not implement. *)
Inductive Call :=
| source_start (source : SourceId) (when : Q)
| source_stop (source : SourceId)
| track_stop (track : Z)
| scriptProcessor_disconnect
| context_close (ctx : AudioContext)
| session_close
| console_error (label detail : jsstring)
| console_log (line : jsstring).

(** ** Inbound messages ([LiveServerMessage] of @google/genai) *)

Record Transcription := { transcription_text : option jsstring }.

Record InlineData := { inline_data : option jsstring }.

Record Part := { inlineData : option InlineData }.

(** [Content.parts] is optional in the SDK's types. *)
Record Content := { parts : option (list Part) }.

(** [turnComplete] and [interrupted] are only tested for truthiness: an
    absent flag is [false]. *)
Record LiveServerContent := {
  modelTurn : option Content;
  inputTranscription : option Transcription;
  outputTranscription : option Transcription;
  turnComplete : bool;
  interrupted : bool
}.

Record LiveServerMessage := { serverContent : option LiveServerContent }.

(** ** The component state: [useState] cells, [useRef] cells, and the world *)

Record App := {
  (* useState *)
  status : Status;
  transcript : list TranscriptEntry;
  errorMessage : jsstring;
  (* useRef *)
  sessionPromiseRef : option SessionPromise;
  inputAudioContextRef : option AudioContext;
  outputAudioContextRef : option AudioContext;
  mediaStreamRef : option MediaStream;
  scriptProcessorRef : option ScriptProcessorNode;
  sourcesRef : list SourceId;
  nextStartTimeRef : Q;
  currentInputTranscriptionRef : jsstring;
  currentOutputTranscriptionRef : jsstring;
  (* outside the component *)
  trace : list Call;
  created : Z
}.

Definition setStatus (v : Status) (s : App) : App :=
  Build_App v (transcript s) (errorMessage s) (sessionPromiseRef s)
    (inputAudioContextRef s) (outputAudioContextRef s) (mediaStreamRef s)
    (scriptProcessorRef s) (sourcesRef s) (nextStartTimeRef s)
    (currentInputTranscriptionRef s) (currentOutputTranscriptionRef s)
    (trace s) (created s).

Definition setTranscript (v : list TranscriptEntry) (s : App) : App :=
  Build_App (status s) v (errorMessage s) (sessionPromiseRef s)
    (inputAudioContextRef s) (outputAudioContextRef s) (mediaStreamRef s)
    (scriptProcessorRef s) (sourcesRef s) (nextStartTimeRef s)
    (currentInputTranscriptionRef s) (currentOutputTranscriptionRef s)
    (trace s) (created s).

Definition setErrorMessage (v : jsstring) (s : App) : App :=
  Build_App (status s) (transcript s) v (sessionPromiseRef s)
    (inputAudioContextRef s) (outputAudioContextRef s) (mediaStreamRef s)
    (scriptProcessorRef s) (sourcesRef s) (nextStartTimeRef s)
    (currentInputTranscriptionRef s) (currentOutputTranscriptionRef s)
    (trace s) (created s).

Definition set_sessionPromiseRef (v : option SessionPromise) (s : App) : App :=
  Build_App (status s) (transcript s) (errorMessage s) v
    (inputAudioContextRef s) (outputAudioContextRef s) (mediaStreamRef s)
    (scriptProcessorRef s) (sourcesRef s) (nextStartTimeRef s)
    (currentInputTranscriptionRef s) (currentOutputTranscriptionRef s)
    (trace s) (created s).

Definition set_inputAudioContextRef (v : option AudioContext) (s : App) : App :=
  Build_App (status s) (transcript s) (errorMessage s) (sessionPromiseRef s)
    v (outputAudioContextRef s) (mediaStreamRef s) (scriptProcessorRef s)
    (sourcesRef s) (nextStartTimeRef s) (currentInputTranscriptionRef s)
    (currentOutputTranscriptionRef s) (trace s) (created s).

Definition set_outputAudioContextRef (v : option AudioContext) (s : App) : App :=
  Build_App (status s) (transcript s) (errorMessage s) (sessionPromiseRef s)
    (inputAudioContextRef s) v (mediaStreamRef s) (scriptProcessorRef s)
    (sourcesRef s) (nextStartTimeRef s) (currentInputTranscriptionRef s)
    (currentOutputTranscriptionRef s) (trace s) (created s).

Definition set_mediaStreamRef (v : option MediaStream) (s : App) : App :=
  Build_App (status s) (transcript s) (errorMessage s) (sessionPromiseRef s)
    (inputAudioContextRef s) (outputAudioContextRef s) v
    (scriptProcessorRef s) (sourcesRef s) (nextStartTimeRef s)
    (currentInputTranscriptionRef s) (currentOutputTranscriptionRef s)
    (trace s) (created s).

Definition set_scriptProcessorRef (v : option ScriptProcessorNode) (s : App) : App :=
  Build_App (status s) (transcript s) (errorMessage s) (sessionPromiseRef s)
    (inputAudioContextRef s) (outputAudioContextRef s) (mediaStreamRef s) v
    (sourcesRef s) (nextStartTimeRef s) (currentInputTranscriptionRef s)
    (currentOutputTranscriptionRef s) (trace s) (created s).

Definition set_sourcesRef (v : list SourceId) (s : App) : App :=
  Build_App (status s) (transcript s) (errorMessage s) (sessionPromiseRef s)
    (inputAudioContextRef s) (outputAudioContextRef s) (mediaStreamRef s)
    (scriptProcessorRef s) v (nextStartTimeRef s)
    (currentInputTranscriptionRef s) (currentOutputTranscriptionRef s)
    (trace s) (created s).

Definition set_nextStartTimeRef (v : Q) (s : App) : App :=
  Build_App (status s) (transcript s) (errorMessage s) (sessionPromiseRef s)
    (inputAudioContextRef s) (outputAudioContextRef s) (mediaStreamRef s)
    (scriptProcessorRef s) (sourcesRef s) v (currentInputTranscriptionRef s)
    (currentOutputTranscriptionRef s) (trace s) (created s).

Definition set_currentInputTranscriptionRef (v : jsstring) (s : App) : App :=
  Build_App (status s) (transcript s) (errorMessage s) (sessionPromiseRef s)
    (inputAudioContextRef s) (outputAudioContextRef s) (mediaStreamRef s)
    (scriptProcessorRef s) (sourcesRef s) (nextStartTimeRef s) v
    (currentOutputTranscriptionRef s) (trace s) (created s).

Definition set_currentOutputTranscriptionRef (v : jsstring) (s : App) : App :=
  Build_App (status s) (transcript s) (errorMessage s) (sessionPromiseRef s)
    (inputAudioContextRef s) (outputAudioContextRef s) (mediaStreamRef s)
    (scriptProcessorRef s) (sourcesRef s) (nextStartTimeRef s)
    (currentInputTranscriptionRef s) v (trace s) (created s).

Definition set_trace (v : list Call) (s : App) : App :=
  Build_App (status s) (transcript s) (errorMessage s) (sessionPromiseRef s)
    (inputAudioContextRef s) (outputAudioContextRef s) (mediaStreamRef s)
    (scriptProcessorRef s) (sourcesRef s) (nextStartTimeRef s)
    (currentInputTranscriptionRef s) (currentOutputTranscriptionRef s) v
    (created s).

Definition set_created (v : Z) (s : App) : App :=
  Build_App (status s) (transcript s) (errorMessage s) (sessionPromiseRef s)
    (inputAudioContextRef s) (outputAudioContextRef s) (mediaStreamRef s)
    (scriptProcessorRef s) (sourcesRef s) (nextStartTimeRef s)
    (currentInputTranscriptionRef s) (currentOutputTranscriptionRef s)
    (trace s) v.

(** [useState] initial values and [useRef] initial values (lines 19-36). *)
Definition initial : App :=
  {| status := idle; transcript := []; errorMessage := [];
     sessionPromiseRef := None;
     inputAudioContextRef := None; outputAudioContextRef := None;
     mediaStreamRef := None; scriptProcessorRef := None;
     sourcesRef := []; nextStartTimeRef := 0%Q;
     currentInputTranscriptionRef := []; currentOutputTranscriptionRef := [];
     trace := []; created := 0 |}.

(** Record one outward call. *)
Definition call (c : Call) (s : App) : App := set_trace (trace s ++ [c]) s.

(** ** A state-and-exception monad for the handlers with [try ... catch] *)

Definition M (A : Type) : Type := App -> Result A * App.

Definition ret {A} (a : A) : M A := fun s => (Return a, s).

Definition bind {A B} (m : M A) (k : A -> M B) : M B :=
  fun s =>
    match m s with
    | (Return a, s') => k a s'
    | (Throw e, s') => (Throw e, s')
    end.

(** A call into the environment whose outcome is given. *)
Definition perform {A} (r : Result A) : M A := fun s => (r, s).

Definition modify (f : App -> App) : M unit := fun s => (Return tt, f s).

Definition get : M App := fun s => (Return s, s).

(** [try { body } catch (e) { handler e }]: the state reached when the
    exception was thrown is the one the handler starts from. *)
Definition try_catch {A} (body : M A) (handler : jsstring -> M A) : M A :=
  fun s =>
    match body s with
    | (Return a, s') => (Return a, s')
    | (Throw e, s') => handler e s'
    end.

Definition exec {A} (m : M A) (s : App) : App := snd (m s).

Declare Scope handler_scope.
Delimit Scope handler_scope with handler.

Notation "x <- m ;; k" := (bind m (fun x => k))
  (at level 61, m at next level, right associativity) : handler_scope.
Notation "m ;; k" := (bind m (fun _ => k))
  (at level 61, right associativity) : handler_scope.

(** ** Playback: [stopAllPlayback] (lines 38-46) *)

(** The loop body, for each element the iterator of the set yields:
    [source.stop(); sourcesRef.current.delete(source)]. *)
Fixpoint stop_each (iterated : list SourceId) (s : App) : App :=
  match iterated with
  | [] => s
  | source :: rest =>
      let s := call (source_stop source) s in
      let s := set_sourcesRef (remove Z.eq_dec source (sourcesRef s)) s in
      stop_each rest s
  end.

(** [sourcesRef.current] is a [Set] object from the first render on, hence
    truthy: the guard always passes. *)
Definition stopAllPlayback (s : App) : App :=
  let s := stop_each (sourcesRef s) s in
  set_nextStartTimeRef 0%Q s.

(** ** [cleanUpAudio] (lines 48-69) *)

Definition close_context (ref : option AudioContext) (s : App) : App :=
  match ref with
  | Some ctx =>
      match contextState ctx with
      | closed => s
      | _ => call (context_close ctx) s
      end
  | None => s
  end.

Definition cleanUpAudio (s : App) : App :=
  let s := stopAllPlayback s in
  let s :=
    match mediaStreamRef s with
    | Some stream =>
        fold_left (fun acc track => call (track_stop track) acc)
          (getTracks stream) s
    | None => s
    end in
  let s := set_mediaStreamRef None s in
  let s :=
    match scriptProcessorRef s with
    | Some _ => set_scriptProcessorRef None (call scriptProcessor_disconnect s)
    | None => s
    end in
  let s := close_context (inputAudioContextRef s) s in
  let s := set_inputAudioContextRef None s in
  let s := close_context (outputAudioContextRef s) s in
  set_outputAudioContextRef None s.

(** ** [stopConversation] (lines 71-83) *)

Definition stopConversation_body : M unit :=
  (modify (setStatus idle) ;;
   s <- get ;;
   match sessionPromiseRef s with
   | Some sessionPromise =>
       try_catch
         (session <- perform sessionPromise ;;
          modify (call session_close) ;;
          perform (close session))
         (fun e => modify (call (console_error (lit "Error closing session:") e))) ;;
       modify (set_sessionPromiseRef None)
   | None => ret tt
   end ;;
   modify cleanUpAudio)%handler.

Definition stopConversation (s : App) : App := exec stopConversation_body s.

(** ** [startConversation] (lines 86-213) *)

(** What the environment answers to each call of the [try] block. *)
Record StartEnv := {
  getUserMedia : Result MediaStream;
  new_GoogleGenAI : Result unit;
  new_inputAudioContext : Result AudioContext;
  new_outputAudioContext : Result AudioContext;
  live_connect : Result SessionPromise
}.

Definition startConversation_try (env : StartEnv) : M unit :=
  (stream <- perform (getUserMedia env) ;;
   modify (set_mediaStreamRef (Some stream)) ;;
   perform (new_GoogleGenAI env) ;;
   inputCtx <- perform (new_inputAudioContext env) ;;
   modify (set_inputAudioContextRef (Some inputCtx)) ;;
   outputCtx <- perform (new_outputAudioContext env) ;;
   modify (set_outputAudioContextRef (Some outputCtx)) ;;
   sessionPromise <- perform (live_connect env) ;;
   modify (set_sessionPromiseRef (Some sessionPromise)))%handler.

Definition startConversation_catch (message : jsstring) : M unit :=
  (modify (call (console_error (lit "Failed to start conversation:") message)) ;;
   modify (setErrorMessage
             (lit "Failed to start: " ++ message
              ++ lit ". Make sure microphone access is allowed.")) ;;
   modify (setStatus error))%handler.

Definition startConversation_body (env : StartEnv) : M unit :=
  (modify (setTranscript []) ;;
   modify (setErrorMessage []) ;;
   modify (setStatus connecting) ;;
   try_catch (startConversation_try env) startConversation_catch)%handler.

Definition startConversation (env : StartEnv) (s : App) : App :=
  exec (startConversation_body env) s.

(** ** The session callbacks *)

(** [onopen] (lines 111-140).  [inputAudioContextRef.current!] throws on
    [null], after the status has been set. *)
Definition onopen (s : App) : App :=
  let s := setStatus listening s in
  match inputAudioContextRef s with
  | Some _ => set_scriptProcessorRef (Some {| bufferSize := 4096 |}) s
  | None => s
  end.

(** [message.serverContent?.modelTurn?.parts[0]?.inlineData?.data], the
    value read when the read does not throw.  On a [modelTurn] without
    [parts] the indexing [parts[0]] throws: see [read_audioData]. *)
Definition audioData (message : LiveServerMessage) : option jsstring :=
  match serverContent message with
  | Some content =>
      match modelTurn content with
      | Some turn =>
          match parts turn with
          | Some (part :: _) =>
              match inlineData part with
              | Some blob => inline_data blob
              | None => None
              end
          | _ => None
          end
      | None => None
      end
  | None => None
  end.

(** The listener of [ended] attached to each source (lines 153-158). *)
Definition ended_listener (source : SourceId) (s : App) : App :=
  let s := set_sourcesRef (remove Z.eq_dec source (sourcesRef s)) s in
  match sourcesRef s with
  | [] => setStatus listening s
  | _ :: _ => s
  end.

(** The turn-complete block (lines 172-185). *)
Definition turnComplete_branch (s : App) : App :=
  let fullInput := trim (currentInputTranscriptionRef s) in
  let fullOutput := trim (currentOutputTranscriptionRef s) in
  let s :=
    if truthy fullInput
    then setTranscript (transcript s ++ [{| speaker := You; text := fullInput |}]) s
    else s in
  let s :=
    if truthy fullOutput
    then setTranscript
           (transcript s ++ [{| speaker := Teacher; text := fullOutput |}]) s
    else s in
  let s := set_currentInputTranscriptionRef [] s in
  set_currentOutputTranscriptionRef [] s.

Section Conversation.

(** [decodeAudioData(decode(audioData), outputAudioContext, 24000, 1)] of
    the missing utils/audio, on a payload it accepts.  The definitions of
    this section follow a run of the handler in which no statement throws;
    [onmessage_handler], below, is the handler with its exceptions, and
    equals [onmessage] whenever its promise is fulfilled. *)
Variable decodeChunk : jsstring -> AudioBuffer.

(** The audio block of [onmessage] (lines 143-163).  [frames] is what the
    output context has rendered when the handler runs. *)
Definition audio_branch (frames : N) (message : LiveServerMessage)
    (s : App) : App :=
  match audioData message with
  | Some payload =>
      if truthy payload then
        let s := setStatus speaking s in
        match outputAudioContextRef s with
        | Some outputAudioContext =>
            let s :=
              set_nextStartTimeRef
                (Qmax (nextStartTimeRef s)
                      (currentTime outputAudioContext frames)) s in
            let audioBuffer := decodeChunk payload in
            let source := created s in
            let s := set_created (source + 1) s in
            let s := call (source_start source (nextStartTimeRef s)) s in
            let s :=
              set_nextStartTimeRef
                (nextStartTimeRef s + duration audioBuffer)%Q s in
            set_sourcesRef (sourcesRef s ++ [source]) s
        | None => s
        end
      else s
  | None => s
  end.

(** The transcription blocks (lines 166-171). *)
Definition transcription_branch (message : LiveServerMessage)
    (s : App) : App :=
  match serverContent message with
  | Some content =>
      let s :=
        match inputTranscription content with
        | Some t =>
            set_currentInputTranscriptionRef
              (currentInputTranscriptionRef s
               ++ str_of_optional (transcription_text t)) s
        | None => s
        end in
      match outputTranscription content with
      | Some t =>
          set_currentOutputTranscriptionRef
            (currentOutputTranscriptionRef s
             ++ str_of_optional (transcription_text t)) s
      | None => s
      end
  | None => s
  end.

Definition flag (f : LiveServerContent -> bool)
    (message : LiveServerMessage) : bool :=
  match serverContent message with
  | Some content => f content
  | None => false
  end.

(** [onmessage] (lines 141-190), when no statement of it throws. *)
Definition onmessage (frames : N) (message : LiveServerMessage)
    (s : App) : App :=
  let s := audio_branch frames message s in
  let s := transcription_branch message s in
  let s := if flag turnComplete message then turnComplete_branch s else s in
  if flag interrupted message then stopAllPlayback s else s.

End Conversation.

(** [onerror] (lines 191-196). *)
Definition onerror (message : jsstring) (s : App) : App :=
  let s := call (console_error (lit "Session error:") message) s in
  let s :=
    setErrorMessage
      (lit "An error occurred: " ++ message ++ lit ". Please try again.") s in
  let s := setStatus error s in
  stopConversation s.

(** [onclose] (lines 197-203).  [status] in the closure is the value of the
    render that created [startConversation], not the current one. *)
Definition onclose (captured_status : Status) (s : App) : App :=
  let s := call (console_log (lit "Session closed.")) s in
  let s := cleanUpAudio s in
  match captured_status with
  | idle => s
  | _ => setStatus idle s
  end.

(** [getStatusText] (lines 226-239). *)
Definition getStatusText (s : App) : jsstring :=
  match status s with
  | connecting => lit "Connecting to the classroom..."
  | listening => lit "Listening... Speak now!"
  | speaking => lit "Teacher is speaking..."
  | error => lit "Error: " ++ errorMessage s
  | idle => lit "Press the microphone to start your lesson."
  end.

(** ** One conversation, as the events the browser and the SDK deliver

    Between [onopen] and the end of the conversation the component is driven
    by inbound messages and by the [ended] notifications of its sources. *)

Inductive SessionEvent :=
| Message (frames : N) (message : LiveServerMessage)
| Ended (source : SourceId).

(** An event that carries the interruption signal. *)
Definition interrupts (e : SessionEvent) : bool :=
  match e with
  | Message _ message => flag interrupted message
  | Ended _ => false
  end.

Section Session.

Variable decodeChunk : jsstring -> AudioBuffer.

Definition session_step (s : App) (e : SessionEvent) : App :=
  match e with
  | Message frames message => onmessage decodeChunk frames message s
  | Ended source => ended_listener source s
  end.

Definition run_session (events : list SessionEvent) (s : App) : App :=
  fold_left session_step events s.

(** The chunk an event hands to the scheduler, with the clock reading. *)
Definition enqueued (e : SessionEvent) : option (N * AudioBuffer) :=
  match e with
  | Message frames message =>
      match audioData message with
      | Some payload =>
          if truthy payload then Some (frames, decodeChunk payload) else None
      | None => None
      end
  | Ended _ => None
  end.

Definition chunks_of (events : list SessionEvent) : list (N * AudioBuffer) :=
  flat_map (fun e => match enqueued e with Some c => [c] | None => [] end)
    events.

(** The sources a message starts: the node it creates, if it enqueues. *)
Definition started_by (e : SessionEvent) (s : App) : list SourceId :=
  match enqueued e, outputAudioContextRef s with
  | Some _, Some _ => [created s]
  | _, _ => []
  end.

(** States of an open conversation, with the sources the browser still owes
    an [ended] notification for (Web Audio dispatches it once per started
    source, when its buffer runs out or after [stop()]).  A conversation
    opens on a state where [startConversation] has made the output context
    and no source is registered; sources of an earlier conversation that
    were stopped may still be owed their notification.  The messages of
    these conversations are the ones whose handler ran to its end. *)
Inductive in_session : list SourceId -> App -> Prop :=
| session_opened (owed : list SourceId) (s : App) :
    outputAudioContextRef s <> None ->
    sourcesRef s = [] ->
    (forall source, In source owed -> In (source_stop source) (trace s)) ->
    in_session owed (onopen s)
| session_event (owed : list SourceId) (s : App) (e : SessionEvent) :
    in_session owed s ->
    match e with
    | Message _ _ => True
    | Ended source => In source owed
    end ->
    in_session
      (match e with
       | Message _ _ => owed ++ started_by e s
       | Ended source => remove Z.eq_dec source owed
       end)
      (session_step s e).

End Session.

(** ** The schedule, read off the trace and read off the specification *)

(** Start times the component passed to [source.start], oldest first. *)
Definition scheduled (calls : list Call) : list Q :=
  flat_map (fun c => match c with source_start _ when => [when] | _ => [] end)
    calls.

(** Section 4.3, [enqueue]: [startAt = max(nextStartTime, currentClockTime)],
    then [nextStartTime = startAt + item.duration]. *)
Fixpoint planned_starts (ctx : AudioContext) (nextStartTime : Q)
    (chunks : list (N * AudioBuffer)) : list Q :=
  match chunks with
  | [] => []
  | (frames, item) :: rest =>
      let startAt := Qmax nextStartTime (currentTime ctx frames) in
      startAt :: planned_starts ctx (startAt + duration item)%Q rest
  end.

Fixpoint planned_end (ctx : AudioContext) (nextStartTime : Q)
    (chunks : list (N * AudioBuffer)) : Q :=
  match chunks with
  | [] => nextStartTime
  | (frames, item) :: rest =>
      let startAt := Qmax nextStartTime (currentTime ctx frames) in
      planned_end ctx (startAt + duration item)%Q rest
  end.

(** Sums of the durations of the chunks before each chunk. *)
Fixpoint cumulative (before : Q) (durations : list Q) : list Q :=
  match durations with
  | [] => []
  | d :: rest => before :: cumulative (before + d)%Q rest
  end.

(** Consecutive playback intervals, given as start and duration, related by
    [R]: end of one against start of the next. *)
Fixpoint chained (R : Q -> Q -> Prop) (intervals : list (Q * Q)) : Prop :=
  match intervals with
  | (startAt, d) :: (((nextAt, _) :: _) as rest) =>
      R (startAt + d)%Q nextAt /\ chained R rest
  | _ => True
  end.

(** No chunk is enqueued after the virtual clock has been overtaken by the
    context clock. *)
Fixpoint never_late (ctx : AudioContext) (nextStartTime : Q)
    (chunks : list (N * AudioBuffer)) : Prop :=
  match chunks with
  | [] => True
  | (frames, item) :: rest =>
      (currentTime ctx frames <= nextStartTime)%Q
      /\ never_late ctx (nextStartTime + duration item)%Q rest
  end.

(** ** Auxiliary notions used by the statements *)

Definition is_byte (b : Z) : Prop := 0 <= b < 256.

Definition is_int16 (v : Z) : Prop := -32768 <= v <= 32767.

(** One step of the int16 grid, [1/32768], bounds the distance. *)
Definition within_quantization (x y : Q) : Prop :=
  (Qabs (y - x) < 1 # 32768)%Q.

(** Section 8: [fromTransportEncoding (toTransportEncoding samples)]
    reproduces [samples] within int16 quantization error. *)
Definition roundtrip_ok (samples : list Q) : Prop :=
  exists decoded,
    fromTransportEncoding (toTransportEncoding samples) = Some decoded
    /\ Forall2 within_quantization samples decoded.

(** A state that holds nothing to release. *)
Definition released (s : App) : Prop :=
  sessionPromiseRef s = None /\ mediaStreamRef s = None
  /\ scriptProcessorRef s = None /\ inputAudioContextRef s = None
  /\ outputAudioContextRef s = None /\ sourcesRef s = []
  /\ nextStartTimeRef s = 0%Q.

Definition context_release (ref : option AudioContext) : list Call :=
  match ref with
  | Some ctx =>
      match contextState ctx with closed => [] | _ => [context_close ctx] end
  | None => []
  end.

(** Everything [cleanUpAudio] asks the browser to release, in call order. *)
Definition release_calls (s : App) : list Call :=
  map source_stop (sourcesRef s)
  ++ match mediaStreamRef s with
     | Some stream => map track_stop (getTracks stream)
     | None => []
     end
  ++ match scriptProcessorRef s with
     | Some _ => [scriptProcessor_disconnect]
     | None => []
     end
  ++ context_release (inputAudioContextRef s)
  ++ context_release (outputAudioContextRef s).

(** The calls [stopConversation] makes on the session before cleaning up. *)
Definition session_calls (ref : option SessionPromise) : list Call :=
  match ref with
  | Some (Return session) =>
      session_close
      :: match close session with
         | Return _ => []
         | Throw e => [console_error (lit "Error closing session:") e]
         end
  | Some (Throw e) => [console_error (lit "Error closing session:") e]
  | None => []
  end.

(** The state the [try] block of [startConversation] starts from. *)
Definition start_prelude (s : App) : App :=
  setStatus connecting (setErrorMessage [] (setTranscript [] s)).

(** The part of [onmessage] that runs after the audio block leaves the
    playback fields alone, up to the final [stopAllPlayback]. *)
Definition after_audio (message : LiveServerMessage) (s : App) : App :=
  let s := transcription_branch message s in
  if flag turnComplete message then turnComplete_branch s else s.

Definition durations (chunks : list (N * AudioBuffer)) : list Q :=
  map (fun c => duration (snd c)) chunks.

(** The start the first chunk of a run gets. *)
Definition first_start (ctx : AudioContext) (nextStartTime : Q)
    (chunks : list (N * AudioBuffer)) : Q :=
  match chunks with
  | [] => nextStartTime
  | (frames, _) :: _ => Qmax nextStartTime (currentTime ctx frames)
  end.

(** Every chunk after the first is enqueued before the previous one has
    finished playing. *)
Definition on_time (ctx : AudioContext) (nextStartTime : Q)
    (chunks : list (N * AudioBuffer)) : Prop :=
  match chunks with
  | [] => True
  | (frames, item) :: rest =>
      never_late ctx
        (Qmax nextStartTime (currentTime ctx frames) + duration item)%Q rest
  end.

Definition silence : AudioBuffer := {| channelData := []; sampleRate := 24000 |}.

Definition pcm_decoder (payload : jsstring) : AudioBuffer :=
  match decode payload with
  | Some bytes =>
      match decodeAudioData bytes 24000 with
      | Some buffer => buffer
      | None => silence
      end
  | None => silence
  end.

Definition granted : StartEnv :=
  {| getUserMedia := Return {| getTracks := [1] |};
     new_GoogleGenAI := Return tt;
     new_inputAudioContext :=
       Return {| contextRate := 16000; contextState := running |};
     new_outputAudioContext :=
       Return {| contextRate := 24000; contextState := running |};
     live_connect := Return (Return {| close := Return tt |}) |}.

Definition opened : App := onopen (startConversation granted initial).

Definition chunk_message (payload : jsstring) : LiveServerMessage :=
  {| serverContent :=
       Some {| modelTurn :=
                 Some {| parts :=
                           Some [{| inlineData :=
                                      Some {| inline_data := Some payload |} |}] |};
               inputTranscription := None;
               outputTranscription := None;
               turnComplete := false;
               interrupted := false |} |}.


Definition tone : jsstring := toTransportEncoding [1 # 2; - (1 # 2); 1 # 4]%Q.

Definition late_events : list SessionEvent :=
  [Message 0 (chunk_message tone); Message 120000 (chunk_message tone)].

Definition prompt_events : list SessionEvent :=
  [Message 240 (chunk_message tone); Message 241 (chunk_message tone);
   Ended 0; Message 243 (chunk_message tone)].

(** What holds of every state of an open conversation. *)
Definition session_invariant (owed : list SourceId) (s : App) : Prop :=
  outputAudioContextRef s <> None
  /\ incl (sourcesRef s) owed
  /\ (status s = speaking -> owed <> [])
  /\ (forall source, In source owed ->
        In source (sourcesRef s) \/ In (source_stop source) (trace s)).

(** Section 4.4, [sealTurn]: the entries one turn contributes, user first. *)
Definition sealed (openUser openAssistant : jsstring) : list TranscriptEntry :=
  (if truthy (trim openUser)
   then [{| speaker := You; text := trim openUser |}] else [])
  ++ (if truthy (trim openAssistant)
      then [{| speaker := Teacher; text := trim openAssistant |}] else []).

(** The deltas a message carries for each buffer. *)
Definition heard_user (message : LiveServerMessage) : jsstring :=
  match serverContent message with
  | Some content =>
      match inputTranscription content with
      | Some t => str_of_optional (transcription_text t)
      | None => []
      end
  | None => []
  end.

Definition heard_assistant (message : LiveServerMessage) : jsstring :=
  match serverContent message with
  | Some content =>
      match outputTranscription content with
      | Some t => str_of_optional (transcription_text t)
      | None => []
      end
  | None => []
  end.

Definition user_delta (t : jsstring) : LiveServerMessage :=
  {| serverContent :=
       Some {| modelTurn := None;
               inputTranscription := Some {| transcription_text := Some t |};
               outputTranscription := None;
               turnComplete := false;
               interrupted := false |} |}.

Definition assistant_delta (t : jsstring) : LiveServerMessage :=
  {| serverContent :=
       Some {| modelTurn := None;
               inputTranscription := None;
               outputTranscription := Some {| transcription_text := Some t |};
               turnComplete := false;
               interrupted := false |} |}.

Definition turn_complete : LiveServerMessage :=
  {| serverContent :=
       Some {| modelTurn := None;
               inputTranscription := None;
               outputTranscription := None;
               turnComplete := true;
               interrupted := false |} |}.

Definition clamp_int16 (z : Z) : Z := Z.max (-32768) (Z.min 32767 z).

(** A start in which the output context cannot be made. *)
Definition output_refused : StartEnv :=
  {| getUserMedia := Return {| getTracks := [1] |};
     new_GoogleGenAI := Return tt;
     new_inputAudioContext :=
       Return {| contextRate := 16000; contextState := running |};
     new_outputAudioContext := Throw (lit "NotSupportedError");
     live_connect := Return (Return {| close := Return tt |}) |}.

(** The open conversation after its first chunk. *)
Definition first_chunk : SessionEvent := Message 240 (chunk_message tone).

Definition speaking_state : App := session_step pcm_decoder opened first_chunk.

(** ** Notions used by the further properties *)

(** The control shown ([renderControlButton], lines 241-271). *)
Inductive Control := start_button | spinner | stop_button.

Definition status_eqb (a b : Status) : bool :=
  match a, b with
  | idle, idle | connecting, connecting | listening, listening
  | speaking, speaking | error, error => true
  | _, _ => false
  end.

Definition renderControlButton (s : App) : Control :=
  if status_eqb (status s) idle || status_eqb (status s) error
  then start_button
  else if status_eqb (status s) connecting then spinner
  else stop_button.

(** A click on the control shown: [onClick] of the start button is
    [startConversation], of the stop button [stopConversation]; the spinner
    has no handler. *)
Definition click (env : StartEnv) (s : App) : App :=
  match renderControlButton s with
  | start_button => startConversation env s
  | spinner => s
  | stop_button => stopConversation s
  end.

(** A start in which every call of the [try] block returns. *)
Definition start_succeeds (env : StartEnv) (stream : MediaStream)
    (inputCtx outputCtx : AudioContext) (promise : SessionPromise) : Prop :=
  getUserMedia env = Return stream
  /\ new_GoogleGenAI env = Return tt
  /\ new_inputAudioContext env = Return inputCtx
  /\ new_outputAudioContext env = Return outputCtx
  /\ live_connect env = Return promise.

(** Calls that give a resource back. *)
Definition is_release (c : Call) : bool :=
  match c with
  | source_stop _ | track_stop _ | scriptProcessor_disconnect
  | context_close _ | session_close => true
  | _ => false
  end.

(** A string that neither starts nor ends with white space. *)
Definition starts_clean (t : jsstring) : bool :=
  match t with
  | [] => true
  | c :: _ => negb (is_white_space c)
  end.

Definition clean_entry (e : TranscriptEntry) : Prop :=
  text e <> []
  /\ starts_clean (text e) = true
  /\ starts_clean (rev (text e)) = true.

(** A start in which the microphone is refused. *)
Definition microphone_refused : StartEnv :=
  {| getUserMedia := Throw (lit "Permission denied");
     new_GoogleGenAI := Return tt;
     new_inputAudioContext :=
       Return {| contextRate := 16000; contextState := running |};
     new_outputAudioContext :=
       Return {| contextRate := 24000; contextState := running |};
     live_connect := Return (Return {| close := Return tt |}) |}.

(** ** [onmessage] with its exceptions

    [onmessage] is an [async] function without [try]: a statement that
    throws rejects its promise and the statements after it do not run.  Two
    statements can throw: the read of the payload, on a [modelTurn] without
    [parts], and the awaited [decodeAudioData(decode(audioData), ...)]. *)

(** [message.serverContent?.modelTurn?.parts[0]?.inlineData?.data]:
    [parts[0]] on an absent [parts] is a [TypeError]. *)
Definition read_audioData (message : LiveServerMessage)
  : Result (option jsstring) :=
  match serverContent message with
  | Some content =>
      match modelTurn content with
      | Some turn =>
          match parts turn with
          | Some _ => Return (audioData message)
          | None =>
              Throw (lit "Cannot read properties of undefined (reading '0')")
          end
      | None => Return None
      end
  | None => Return None
  end.

Section Handler.

(** [decodeAudioData(decode(audioData), outputAudioContext, 24000, 1)] of
    the missing utils/audio: the buffer, or the exception. *)
Variable decodePayload : jsstring -> Result AudioBuffer.

(** The audio block (lines 143-163). *)
Definition audio_block (frames : N) (message : LiveServerMessage) : M unit :=
  (read <- perform (read_audioData message) ;;
   match read with
   | Some payload =>
       if truthy payload then
         modify (setStatus speaking) ;;
         s <- get ;;
         match outputAudioContextRef s with
         | Some outputAudioContext =>
             modify (fun s =>
                       set_nextStartTimeRef
                         (Qmax (nextStartTimeRef s)
                               (currentTime outputAudioContext frames)) s) ;;
             audioBuffer <- perform (decodePayload payload) ;;
             modify (fun s =>
                       let source := created s in
                       let s := set_created (source + 1) s in
                       let s :=
                         call (source_start source (nextStartTimeRef s)) s in
                       let s :=
                         set_nextStartTimeRef
                           (nextStartTimeRef s + duration audioBuffer)%Q s in
                       set_sourcesRef (sourcesRef s ++ [source]) s)
         | None => ret tt
         end
       else ret tt
   | None => ret tt
   end)%handler.

(** [onmessage] (lines 141-190): the outcome of its promise and the state
    it leaves. *)
Definition onmessage_handler (frames : N) (message : LiveServerMessage)
  : M unit :=
  (audio_block frames message ;;
   modify (transcription_branch message) ;;
   (if flag turnComplete message then modify turnComplete_branch else ret tt) ;;
   (if flag interrupted message then modify stopAllPlayback else ret tt)
  )%handler.

End Handler.

(** [decodeChunk] gives the buffer of every payload [decodePayload]
    decodes. *)
Definition agrees (decodePayload : jsstring -> Result AudioBuffer)
    (decodeChunk : jsstring -> AudioBuffer) : Prop :=
  forall payload buffer,
    decodePayload payload = Return buffer -> decodeChunk payload = buffer.

(** Modelled from the spec: the decoder of utils/audio with its failure,
    section 4.1 ("malformed-length input (odd byte count) which fails with
    CodecError"); [pcm_decoder] is its value where it returns. *)
Definition pcm_decode (payload : jsstring) : Result AudioBuffer :=
  match decode payload with
  | Some bytes =>
      match decodeAudioData bytes 24000 with
      | Some buffer => Return buffer
      | None => Throw (lit "CodecError")
      end
  | None => Throw (lit "CodecError")
  end.

(** A total decoder that agrees with [decodePayload]. *)
Definition decoded_or_silence (decodePayload : jsstring -> Result AudioBuffer)
    (payload : jsstring) : AudioBuffer :=
  match decodePayload payload with
  | Return buffer => buffer
  | Throw _ => silence
  end.

(** ** [stopConversation], split at its [await]

    No caller awaits [stopConversation]: a second call can start while the
    first is suspended at [await sessionPromiseRef.current]. *)

(** Lines 72-75, up to the [await]: the state, and the promise the call is
    suspended on.  Without a session promise nothing is awaited and the call
    runs to its end. *)
Definition stopConversation_begin (s : App) : App * option SessionPromise :=
  let s := setStatus idle s in
  match sessionPromiseRef s with
  | Some sessionPromise => (s, Some sessionPromise)
  | None => (cleanUpAudio s, None)
  end.





(** A chunk that closes the turn: audio, the last delta and the flag. *)
Definition closing_chunk (payload delta : jsstring) : LiveServerMessage :=
  {| serverContent :=
       Some {| modelTurn :=
                 Some {| parts :=
                           Some [{| inlineData :=
                                      Some {| inline_data := Some payload |} |}] |};
               inputTranscription := None;
               outputTranscription :=
                 Some {| transcription_text := Some delta |};
               turnComplete := true;
               interrupted := false |} |}.

(** A payload of one byte: base64 text that is no 16-bit PCM. *)
Definition garbled : jsstring := lit "AA==".

(* ================================================================== *)
(** * Proofs *)
(* ================================================================== *)

Ltac split_tests :=
  repeat match goal with
    | |- context [andb true _] => cbn [andb]
    | |- context [andb false _] => cbn [andb]
    | |- context [?a <=? ?b] => destruct (Z.leb_spec a b)
    | |- context [?a <? ?b] => destruct (Z.ltb_spec a b)
    | |- context [?a =? ?b] => destruct (Z.eqb_spec a b)
    end.

Ltac fields :=
  cbn [status transcript errorMessage sessionPromiseRef inputAudioContextRef
       outputAudioContextRef mediaStreamRef scriptProcessorRef sourcesRef
       nextStartTimeRef currentInputTranscriptionRef
       currentOutputTranscriptionRef trace created
       setStatus setTranscript setErrorMessage set_sessionPromiseRef
       set_inputAudioContextRef set_outputAudioContextRef set_mediaStreamRef
       set_scriptProcessorRef set_sourcesRef set_nextStartTimeRef
       set_currentInputTranscriptionRef set_currentOutputTranscriptionRef
       set_trace set_created call].

Ltac run_handler :=
  unfold exec, bind, modify, perform, get, ret, try_catch; cbn.

(** ** The codec *)

Lemma b64_value_char n : 0 <= n < 64 -> b64_value (b64_char n) = Some n.
Proof.
  intros Hn. unfold b64_char.
  destruct (Z.ltb_spec n 26); [|destruct (Z.ltb_spec n 52); [|destruct (Z.ltb_spec n 62); [|destruct (Z.eqb_spec n 62)]]];
  unfold b64_value; split_tests; cbn [andb]; try lia; f_equal; lia.
Qed.

Lemma b64_char_not_pad n : 0 <= n < 64 -> (b64_char n =? b64_pad) = false.
Proof.
  intros Hn. apply Z.eqb_neq. unfold b64_char, b64_pad. split_tests; lia.
Qed.

Lemma decode_encode_bounded n : forall bytes,
  (length bytes <= n)%nat -> Forall is_byte bytes -> decode (encode bytes) = Some bytes.
Proof.
  induction n as [|n IH]; intros bytes Hlen Hb.
  - destruct bytes; [reflexivity | simpl in Hlen; lia].
  - destruct bytes as [|a [|b [|c rest]]]; [reflexivity | | |].
    + inversion_clear Hb as [|? ? Ha _]. unfold is_byte in Ha.
      cbn [encode decode].
      rewrite !b64_value_char by (Z.to_euclidean_division_equations; lia).
      rewrite Z.eqb_refl. do 2 f_equal. Z.to_euclidean_division_equations; lia.
    + inversion_clear Hb as [|? ? Ha Hb']. inversion_clear Hb' as [|? ? Hb _].
      unfold is_byte in *. cbn [encode decode].
      rewrite !b64_value_char by (Z.to_euclidean_division_equations; lia).
      rewrite b64_char_not_pad by (Z.to_euclidean_division_equations; lia).
      rewrite Z.eqb_refl. f_equal. f_equal; [|f_equal]; Z.to_euclidean_division_equations; lia.
    + inversion_clear Hb as [|? ? Ha Hb']. inversion_clear Hb' as [|? ? Hb Hc'].
      inversion_clear Hc' as [|? ? Hc Hrest].
      unfold is_byte in *. cbn [encode decode].
      rewrite !b64_value_char by (Z.to_euclidean_division_equations; lia).
      rewrite !b64_char_not_pad by (Z.to_euclidean_division_equations; lia).
      rewrite IH by (simpl in Hlen; lia || assumption).
      f_equal. f_equal; [|f_equal; [|f_equal]]; Z.to_euclidean_division_equations; lia.
Qed.

Lemma int16_bytes_spec v :
  exists lo hi, int16_bytes v = [lo; hi] /\ is_byte lo /\ is_byte hi /\
                lo + 256 * hi = v mod 65536.
Proof.
  unfold int16_bytes, is_byte. eexists _, _. split; [reflexivity|].
  Z.to_euclidean_division_equations; lia.
Qed.

Lemma Uint8Array_bytes int16 : Forall is_byte (Uint8Array_of_Int16Array int16).
Proof.
  induction int16 as [|v rest IH]; [constructor|].
  destruct (int16_bytes_spec v) as (lo & hi & E & Hlo & Hhi & _).
  unfold Uint8Array_of_Int16Array in *. cbn [flat_map]. rewrite E.
  cbn [app]. auto.
Qed.

Lemma Int16Array_of_Uint8Array int16 :
  Forall is_int16 int16 ->
  Int16Array_of_bytes (Uint8Array_of_Int16Array int16) = Some int16.
Proof.
  induction 1 as [|v rest Hv _ IH]; [reflexivity|].
  destruct (int16_bytes_spec v) as (lo & hi & E & Hlo & Hhi & Hsum).
  unfold Uint8Array_of_Int16Array in *. cbn [flat_map]. rewrite E.
  cbn [app Int16Array_of_bytes]. rewrite IH. rewrite Hsum.
  unfold is_int16 in Hv. do 2 f_equal.
  destruct (Z.leb_spec 32768 (v mod 65536));
    Z.to_euclidean_division_equations; lia.
Qed.

Lemma ToInt16_is_int16 x : is_int16 (ToInt16 x).
Proof.
  unfold ToInt16, is_int16.
  destruct (Z.leb_spec 32768 (Qtrunc x mod 65536));
    Z.to_euclidean_division_equations; lia.
Qed.

Lemma ToInt16_in_range x :
  is_int16 (Qtrunc x) -> ToInt16 x = Qtrunc x.
Proof.
  unfold ToInt16, is_int16. intros H.
  destruct (Z.leb_spec 32768 (Qtrunc x mod 65536));
    Z.to_euclidean_division_equations; lia.
Qed.

Lemma Qtrunc_error y : (Qabs (inject_Z (Qtrunc y) - y) < 1)%Q.
Proof.
  apply Qabs_Qlt_condition. destruct y as [n d]. unfold Qtrunc, Qlt, Qminus, Qplus, Qopp, inject_Z.
  cbn [Qnum Qden]. 
  pose proof (Z.quot_rem' n (Z.pos d)) as E.
  pose proof (Z.rem_bound_abs n (Z.pos d)) as B.
  assert (Hb : Z.abs (Z.rem n (Z.pos d)) < Z.pos d) by (rewrite Z.abs_eq with (n := Z.pos d) in B; lia).
  set (q := Z.quot n (Z.pos d)) in *. set (r := Z.rem n (Z.pos d)) in *.
  rewrite !Pos2Z.inj_mul. split; nia.
Qed.

Lemma Qtrunc_between y lo hi :
  lo <= 0 < hi -> (inject_Z lo <= y)%Q -> (y < inject_Z hi)%Q ->
  lo <= Qtrunc y < hi.
Proof.
  destruct y as [n d]. unfold Qtrunc, Qle, Qlt, inject_Z. cbn [Qnum Qden].
  intros H0 H1 H2.
  pose proof (Z.quot_rem' n (Z.pos d)) as E.
  rewrite !Z.mul_1_r in *.
  destruct (Z.le_gt_cases 0 n) as [Hn|Hn].
  - pose proof (Z.rem_bound_pos n (Z.pos d) Hn ltac:(lia)) as B.
    pose proof (Z.quot_pos n (Z.pos d) Hn ltac:(lia)) as P.
    set (q := Z.quot n (Z.pos d)) in *. set (r := Z.rem n (Z.pos d)) in *.
    split; [lia|].
    destruct (Z.lt_ge_cases q hi) as [|G]; [assumption|exfalso].
    assert (Z.pos d * hi <= Z.pos d * q) by (apply Z.mul_le_mono_nonneg_l; lia).
    lia.
  - pose proof (Z.rem_bound_pos (- n) (Z.pos d) ltac:(lia) ltac:(lia)) as B.
    rewrite Z.rem_opp_l in B by lia.
    pose proof (Z.quot_pos (- n) (Z.pos d) ltac:(lia) ltac:(lia)) as P.
    rewrite Z.quot_opp_l in P by lia.
    set (q := Z.quot n (Z.pos d)) in *. set (r := Z.rem n (Z.pos d)) in *.
    split; [|lia].
    destruct (Z.le_gt_cases lo q) as [|G]; [assumption|exfalso].
    assert (Z.pos d * (q + 1) <= Z.pos d * lo) by (apply Z.mul_le_mono_nonneg_l; lia).
    lia.
Qed.

Lemma pcm_sample_close x :
  (-1 <= x)%Q -> (x < 1)%Q ->
  within_quantization x (inject_Z (pcm_sample x) / 32768)%Q.
Proof.
  intros Hlo Hhi. unfold pcm_sample, within_quantization.
  assert (R : is_int16 (Qtrunc (x * 32768))).
  { unfold is_int16.
    enough (-32768 <= Qtrunc (x * 32768) < 32768) by lia.
    apply Qtrunc_between; [lia| |]; unfold inject_Z; lra. }
  rewrite (ToInt16_in_range _ R).
  pose proof (Qtrunc_error (x * 32768)) as E.
  apply Qabs_Qlt_condition in E. apply Qabs_Qlt_condition.
  set (t := inject_Z (Qtrunc (x * 32768))) in *.
  unfold Qdiv. change (/ 32768)%Q with (1 # 32768)%Q.
  split; lra.
Qed.

(** C7 (amended).  For every sequence of samples each in [-1, 1), with 1
    itself left out, decoding the transport encoding of the sequence succeeds
    and gives back as many samples, each less than one int16 step (1/32768)
    away from the original. *)
Theorem roundtrip_within_quantization samples :
  Forall (fun x => -1 <= x /\ x < 1)%Q samples ->
  roundtrip_ok samples.
Proof.
  intros Hs. unfold roundtrip_ok.
  exists (map (fun v => (inject_Z v / 32768)%Q) (pcm_samples samples)). split.
  - unfold fromTransportEncoding, toTransportEncoding, onaudioprocess.
    cbn [data].
    rewrite (decode_encode_bounded _ _ (le_n _) (Uint8Array_bytes _)).
    unfold decodeAudioData.
    rewrite Int16Array_of_Uint8Array; [reflexivity|].
    unfold pcm_samples. apply Forall_map, Forall_forall. intros x _.
    apply ToInt16_is_int16.
  - induction Hs as [|x rest [Hlo Hhi] _ IH]; cbn [pcm_samples map]; constructor.
    + now apply pcm_sample_close.
    + exact IH.
Qed.

(** ** The component *)

Lemma stop_each_sources l : forall s,
  sourcesRef (stop_each l s)
  = fold_left (fun acc source => remove Z.eq_dec source acc) l (sourcesRef s).
Proof.
  induction l as [|x l IH]; intros s; [reflexivity|].
  cbn [stop_each fold_left]. rewrite IH. reflexivity.
Qed.

Lemma stop_each_trace l : forall s,
  trace (stop_each l s) = trace s ++ map source_stop l.
Proof.
  induction l as [|x l IH]; intros s; cbn [stop_each map].
  - now rewrite app_nil_r.
  - rewrite IH. cbn. now rewrite <- app_assoc.
Qed.

Lemma stop_each_frame l : forall s,
  stop_each l s
  = set_sourcesRef (sourcesRef (stop_each l s))
      (set_trace (trace (stop_each l s)) s).
Proof.
  induction l as [|x l IH]; intros s; cbn [stop_each].
  - destruct s; reflexivity.
  - rewrite IH at 1. destruct s; reflexivity.
Qed.

Lemma fold_remove_subset l : forall acc x,
  In x (fold_left (fun acc source => remove Z.eq_dec source acc) l acc) ->
  In x acc /\ ~ In x l.
Proof.
  induction l as [|y l IH]; intros acc x H; cbn [fold_left] in H.
  - split; [assumption | intros []].
  - apply IH in H. destruct H as [H1 H2]. apply in_remove in H1.
    destruct H1 as [H1 Hne]. split; [assumption|].
    intros [->|Hin]; [now apply Hne | now apply H2].
Qed.

Lemma stopAllPlayback_sources s : sourcesRef (stopAllPlayback s) = [].
Proof.
  unfold stopAllPlayback. cbn [sourcesRef set_nextStartTimeRef].
  rewrite stop_each_sources.
  destruct (fold_left _ _ _) as [|x rest] eqn:E; [reflexivity|].
  assert (H : In x (x :: rest)) by (left; reflexivity).
  rewrite <- E in H. apply fold_remove_subset in H. tauto.
Qed.

Lemma set_trace_same s : set_trace (trace s) s = s.
Proof. destruct s; reflexivity. Qed.

Lemma fold_track_stop l : forall s,
  fold_left (fun acc track => call (track_stop track) acc) l s
  = set_trace (trace s ++ map track_stop l) s.
Proof.
  induction l as [|t l IH]; intros s; cbn [fold_left map].
  - rewrite app_nil_r. symmetry. apply set_trace_same.
  - rewrite IH. unfold call. destruct s; cbn. now rewrite <- app_assoc.
Qed.

Lemma close_context_frame ref s :
  close_context ref s = set_trace (trace s ++ context_release ref) s.
Proof.
  unfold close_context, context_release.
  destruct ref as [ctx|]; [destruct (contextState ctx)|];
    try reflexivity; rewrite app_nil_r; symmetry; apply set_trace_same.
Qed.

Lemma stopAllPlayback_frame s :
  stopAllPlayback s
  = set_nextStartTimeRef 0%Q
      (set_sourcesRef []
         (set_trace (trace s ++ map source_stop (sourcesRef s)) s)).
Proof.
  pose proof (stopAllPlayback_sources s) as E.
  unfold stopAllPlayback in *. cbn [sourcesRef set_nextStartTimeRef] in E.
  rewrite stop_each_frame, E, stop_each_trace. reflexivity.
Qed.

Lemma cleanUpAudio_frame s :
  cleanUpAudio s
  = set_outputAudioContextRef None
      (set_inputAudioContextRef None
         (set_scriptProcessorRef None
            (set_mediaStreamRef None
               (set_nextStartTimeRef 0%Q
                  (set_sourcesRef []
                     (set_trace (trace s ++ release_calls s) s)))))).
Proof.
  unfold cleanUpAudio, release_calls. rewrite stopAllPlayback_frame.
  rewrite !close_context_frame.
  destruct s as [st tr em sp ic oc ms proc src nst ci co tc cr].
  cbn. destruct ms as [stream|]; destruct proc as [p|]; cbn;
    rewrite ?fold_track_stop; cbn; unfold call; cbn;
    rewrite <- ?app_assoc; cbn; rewrite ?app_nil_r; reflexivity.
Qed.

Lemma stopConversation_frame s :
  stopConversation s
  = cleanUpAudio
      (set_sessionPromiseRef None
         (set_trace (trace s ++ session_calls (sessionPromiseRef s))
            (setStatus idle s))).
Proof.
  unfold stopConversation, stopConversation_body, session_calls.
  destruct s as [st tr em sp ic oc ms proc src nst ci co tc cr].
  destruct sp as [[[[u|e]]|e]|]; run_handler; try destruct u;
    rewrite ?app_nil_r; unfold call; cbn; rewrite <- ?app_assoc; reflexivity.
Qed.


Lemma stopConversation_released s : released (stopConversation s).
Proof.
  rewrite stopConversation_frame, cleanUpAudio_frame.
  unfold released. cbn. tauto.
Qed.

Lemma stopConversation_status s : status (stopConversation s) = idle.
Proof. rewrite stopConversation_frame, cleanUpAudio_frame. reflexivity. Qed.




Lemma stopConversation_begin_spec s :
  stopConversation_begin s
  = match sessionPromiseRef s with
    | Some sessionPromise => (setStatus idle s, Some sessionPromise)
    | None => (cleanUpAudio (setStatus idle s), None)
    end.
Proof. reflexivity. Qed.









(** C3 (what the code does).  After [onerror] the status is [idle], not
    [error]: [stopConversation], called last, starts with [setStatus('idle')].
    The message is recorded but [getStatusText] shows the idle prompt.  The
    sources are emptied and the microphone stream is released as claimed. *)
Theorem onerror_ends_idle message s :
  let s' := onerror message s in
  status s' = idle
  /\ getStatusText s' = lit "Press the microphone to start your lesson."
  /\ errorMessage s'
     = lit "An error occurred: " ++ message ++ lit ". Please try again."
  /\ sourcesRef s' = []
  /\ mediaStreamRef s' = None
  /\ trace s'
     = trace s ++ [console_error (lit "Session error:") message]
       ++ session_calls (sessionPromiseRef s) ++ release_calls s.
Proof.
  unfold onerror. cbv zeta. rewrite stopConversation_frame, cleanUpAudio_frame.
  unfold getStatusText. cbn.
  repeat split. unfold release_calls. cbn. now rewrite <- !app_assoc.
Qed.

(** C10.  When the [try] block of [startConversation] throws after the
    microphone stream was obtained, the handler only logs, sets the error
    message and sets the status to [error]: the stream stays in
    [mediaStreamRef], every audio context made before the exception stays in
    its reference, no release call is made, and [sessionPromiseRef] is left as
    it was. *)
Theorem startConversation_failure_keeps_resources env s stream message :
  getUserMedia env = Return stream ->
  fst (startConversation_try env (start_prelude s)) = Throw message ->
  let thrown := snd (startConversation_try env (start_prelude s)) in
  let s' := startConversation env s in
  s' = exec (startConversation_catch message) thrown
  /\ status s' = error
  /\ errorMessage s'
     = lit "Failed to start: " ++ message
       ++ lit ". Make sure microphone access is allowed."
  /\ mediaStreamRef s' = Some stream
  /\ sessionPromiseRef s' = sessionPromiseRef s
  /\ trace s'
     = trace s ++ [console_error (lit "Failed to start conversation:") message]
  /\ inputAudioContextRef s'
     = match new_GoogleGenAI env, new_inputAudioContext env with
       | Return _, Return ctx => Some ctx
       | _, _ => inputAudioContextRef s
       end
  /\ outputAudioContextRef s'
     = match new_GoogleGenAI env, new_inputAudioContext env,
             new_outputAudioContext env with
       | Return _, Return _, Return ctx => Some ctx
       | _, _, _ => outputAudioContextRef s
       end.
Proof.
  intros Hmic Hthrow.
  unfold startConversation, startConversation_body, start_prelude in *.
  unfold startConversation_try, startConversation_catch in *.
  destruct env as [mic client ictx octx conn]. cbn in Hmic. subst mic.
  destruct s as [st tr em sp ic oc ms proc src nst ci co tc cr].
  destruct client as [u|e1]; [destruct ictx as [i|e2];
    [destruct octx as [o|e3]; [destruct conn as [p|e4]|]|]|];
    revert Hthrow; run_handler; intros Hthrow;
    try discriminate; injection Hthrow as <-; repeat split.
Qed.

(** ** The blocks of [onmessage] *)

Section Blocks.

Variable decodeChunk : jsstring -> AudioBuffer.

Lemma duration_nonneg item : (0 <= duration item)%Q.
Proof. unfold duration, Qle. cbn. lia. Qed.

Lemma currentTime_nonneg ctx frames : (0 <= currentTime ctx frames)%Q.
Proof. unfold currentTime, Qle. cbn. lia. Qed.

Lemma audio_branch_enqueues frames message s item ctx :
  enqueued decodeChunk (Message frames message) = Some (frames, item) ->
  outputAudioContextRef s = Some ctx ->
  let startAt := Qmax (nextStartTimeRef s) (currentTime ctx frames) in
  audio_branch decodeChunk frames message s
  = set_sourcesRef (sourcesRef s ++ [created s])
      (set_nextStartTimeRef (startAt + duration item)%Q
         (call (source_start (created s) startAt)
            (set_created (created s + 1) (setStatus speaking s)))).
Proof.
  unfold enqueued, audio_branch. intros E C.
  destruct (audioData message) as [payload|]; [|discriminate].
  destruct (truthy payload); [|discriminate].
  injection E as <-. cbn. rewrite C. reflexivity.
Qed.

Lemma audio_branch_without_context frames message s chunk :
  enqueued decodeChunk (Message frames message) = Some chunk ->
  outputAudioContextRef s = None ->
  audio_branch decodeChunk frames message s = setStatus speaking s.
Proof.
  unfold enqueued, audio_branch. intros E C.
  destruct (audioData message) as [payload|]; [|discriminate].
  destruct (truthy payload); [|discriminate].
  cbn. rewrite C. reflexivity.
Qed.

Lemma audio_branch_no_chunk frames message s :
  enqueued decodeChunk (Message frames message) = None ->
  audio_branch decodeChunk frames message s = s.
Proof.
  unfold enqueued, audio_branch. intros E.
  destruct (audioData message) as [payload|]; [|reflexivity].
  destruct (truthy payload); [discriminate|reflexivity].
Qed.

Lemma enqueued_frames frames message chunk :
  enqueued decodeChunk (Message frames message) = Some chunk ->
  fst chunk = frames.
Proof.
  unfold enqueued. destruct (audioData message) as [payload|]; [|discriminate].
  destruct (truthy payload); [|discriminate]. now intros [= <-].
Qed.

Lemma transcription_branch_frame message s :
  transcription_branch message s
  = set_currentOutputTranscriptionRef
      (currentOutputTranscriptionRef (transcription_branch message s))
      (set_currentInputTranscriptionRef
         (currentInputTranscriptionRef (transcription_branch message s)) s).
Proof.
  unfold transcription_branch.
  destruct s as [st tr em sp ic oc ms proc src nst ci co tc cr].
  destruct (serverContent message) as [content|]; [|reflexivity].
  destruct (inputTranscription content), (outputTranscription content);
    reflexivity.
Qed.

Lemma turnComplete_branch_frame s :
  turnComplete_branch s
  = set_currentOutputTranscriptionRef []
      (set_currentInputTranscriptionRef []
         (setTranscript (transcript (turnComplete_branch s)) s)).
Proof.
  unfold turnComplete_branch.
  destruct s as [st tr em sp ic oc ms proc src nst ci co tc cr].
  cbn [currentInputTranscriptionRef currentOutputTranscriptionRef].
  destruct (truthy (trim ci)), (truthy (trim co)); reflexivity.
Qed.

Lemma onmessage_split frames message s :
  onmessage decodeChunk frames message s
  = let s := after_audio message (audio_branch decodeChunk frames message s) in
    if flag interrupted message then stopAllPlayback s else s.
Proof. reflexivity. Qed.

Lemma after_audio_frame message s :
  after_audio message s
  = set_currentOutputTranscriptionRef
      (currentOutputTranscriptionRef (after_audio message s))
      (set_currentInputTranscriptionRef
         (currentInputTranscriptionRef (after_audio message s))
         (setTranscript (transcript (after_audio message s)) s)).
Proof.
  unfold after_audio. cbv zeta.
  rewrite (transcription_branch_frame message s).
  set (i := currentInputTranscriptionRef (transcription_branch message s)).
  set (o := currentOutputTranscriptionRef (transcription_branch message s)).
  destruct (flag turnComplete message).
  - rewrite turnComplete_branch_frame. unfold turnComplete_branch.
    destruct s; fields.
    destruct (truthy (trim i)), (truthy (trim o)); reflexivity.
  - destruct s; reflexivity.
Qed.

End Blocks.

Section Playback.

Variable decodeChunk : jsstring -> AudioBuffer.

Lemma scheduled_app l1 l2 : scheduled (l1 ++ l2) = scheduled l1 ++ scheduled l2.
Proof. unfold scheduled. apply flat_map_app. Qed.

Lemma scheduled_stops l : scheduled (map source_stop l) = [].
Proof. induction l as [|x l IH]; [reflexivity | exact IH]. Qed.

(** What [onmessage] leaves of the audio block's playback fields. *)
Lemma onmessage_after_audio frames message s :
  let a := audio_branch decodeChunk frames message s in
  let s' := onmessage decodeChunk frames message s in
  status s' = status a
  /\ outputAudioContextRef s' = outputAudioContextRef a
  /\ created s' = created a
  /\ nextStartTimeRef s'
     = (if flag interrupted message then 0%Q else nextStartTimeRef a)
  /\ sourcesRef s' = (if flag interrupted message then [] else sourcesRef a)
  /\ trace s'
     = trace a ++ (if flag interrupted message
                   then map source_stop (sourcesRef a) else []).
Proof.
  cbv zeta. rewrite onmessage_split. cbv zeta.
  set (a := audio_branch decodeChunk frames message s).
  rewrite (after_audio_frame message a).
  destruct (flag interrupted message).
  - rewrite stopAllPlayback_frame. fields. repeat split.
  - fields. rewrite app_nil_r. repeat split.
Qed.

Lemma audio_branch_context frames message s :
  outputAudioContextRef (audio_branch decodeChunk frames message s)
  = outputAudioContextRef s.
Proof.
  destruct (enqueued decodeChunk (Message frames message)) as [[f item]|] eqn:E.
  - pose proof (enqueued_frames _ _ _ _ E) as F. cbn in F. subst f.
    destruct (outputAudioContextRef s) as [ctx|] eqn:C.
    + rewrite (audio_branch_enqueues _ _ _ _ _ _ E C). fields. exact C.
    + rewrite (audio_branch_without_context _ _ _ _ _ E C). exact C.
  - now rewrite audio_branch_no_chunk.
Qed.

Lemma session_step_context s e :
  outputAudioContextRef (session_step decodeChunk s e)
  = outputAudioContextRef s.
Proof.
  destruct e as [frames message|source]; cbn [session_step].
  - destruct (onmessage_after_audio frames message s) as (_ & -> & _).
    apply audio_branch_context.
  - unfold ended_listener. fields.
    destruct (remove Z.eq_dec source (sourcesRef s)); reflexivity.
Qed.

(** One event that does not interrupt: the schedule grows by the planned
    start of the chunk it enqueues, and the virtual clock moves to its end. *)
Lemma session_step_schedule ctx s e :
  outputAudioContextRef s = Some ctx ->
  interrupts e = false ->
  let chunk := match enqueued decodeChunk e with Some c => [c] | None => [] end in
  scheduled (trace (session_step decodeChunk s e))
  = scheduled (trace s) ++ planned_starts ctx (nextStartTimeRef s) chunk
  /\ nextStartTimeRef (session_step decodeChunk s e)
     = planned_end ctx (nextStartTimeRef s) chunk.
Proof.
  intros C I. destruct e as [frames message|source]; cbn [session_step].
  - cbn [interrupts] in I.
    destruct (onmessage_after_audio frames message s)
      as (_ & _ & _ & -> & _ & ->).
    rewrite I, app_nil_r.
    destruct (enqueued decodeChunk (Message frames message)) as [[f item]|] eqn:E.
    + pose proof (enqueued_frames _ _ _ _ E) as F. cbn in F. subst f.
      rewrite (audio_branch_enqueues _ _ _ _ _ _ E C). fields.
      rewrite scheduled_app. cbn. split; reflexivity.
    + rewrite audio_branch_no_chunk by exact E. cbn.
      now rewrite app_nil_r.
  - unfold ended_listener. fields. cbn [enqueued planned_starts planned_end].
    rewrite app_nil_r.
    destruct (remove Z.eq_dec source (sourcesRef s)); split; reflexivity.
Qed.

Lemma planned_starts_app ctx : forall chunks next more,
  planned_starts ctx next (chunks ++ more)
  = planned_starts ctx next chunks
    ++ planned_starts ctx (planned_end ctx next chunks) more.
Proof.
  induction chunks as [|[f item] rest IH]; intros next more; [reflexivity|].
  cbn. now rewrite IH.
Qed.

Lemma planned_end_app ctx : forall chunks next more,
  planned_end ctx next (chunks ++ more)
  = planned_end ctx (planned_end ctx next chunks) more.
Proof.
  induction chunks as [|[f item] rest IH]; intros next more; [reflexivity|].
  cbn. now rewrite IH.
Qed.

Lemma run_session_schedule ctx : forall events s,
  outputAudioContextRef s = Some ctx ->
  existsb interrupts events = false ->
  scheduled (trace (run_session decodeChunk events s))
  = scheduled (trace s)
    ++ planned_starts ctx (nextStartTimeRef s) (chunks_of decodeChunk events)
  /\ nextStartTimeRef (run_session decodeChunk events s)
     = planned_end ctx (nextStartTimeRef s) (chunks_of decodeChunk events).
Proof.
  induction events as [|e events IH]; intros s C I.
  - cbn. now rewrite app_nil_r.
  - cbn [existsb] in I. apply orb_false_iff in I. destruct I as [I1 I2].
    destruct (session_step_schedule ctx s e C I1) as [T N].
    cbn [run_session fold_left chunks_of flat_map].
    fold (run_session decodeChunk events (session_step decodeChunk s e)).
    fold (chunks_of decodeChunk events).
    destruct (IH (session_step decodeChunk s e)) as [T' N'];
      [now rewrite session_step_context | exact I2 |].
    rewrite T', N', T, N, planned_starts_app, planned_end_app, app_assoc.
    split; reflexivity.
Qed.

End Playback.

Lemma planned_never_overlap ctx : forall chunks next,
  chained Qle (combine (planned_starts ctx next chunks) (durations chunks)).
Proof.
  induction chunks as [|[f item] rest IH]; intros next; [exact I|].
  cbn [planned_starts durations map combine snd].
  specialize (IH (Qmax next (currentTime ctx f) + duration item)%Q).
  destruct rest as [|[f2 item2] rest2]; [exact I|].
  cbn [planned_starts durations map combine snd] in *.
  split; [apply Q.le_max_l | exact IH].
Qed.

Lemma planned_back_to_back ctx : forall chunks next next',
  (next == next')%Q ->
  never_late ctx next' chunks ->
  Forall2 Qeq (planned_starts ctx next chunks)
    (cumulative next' (durations chunks)).
Proof.
  induction chunks as [|[f item] rest IH]; intros next next' E L;
    [constructor|].
  cbn [planned_starts durations map cumulative snd never_late] in *.
  destruct L as [L1 L2].
  assert (M : (Qmax next (currentTime ctx f) == next')%Q).
  { rewrite Q.max_l; [exact E | now rewrite E]. }
  constructor; [exact M|].
  apply IH; [now rewrite M | exact L2].
Qed.

Lemma planned_starts_from_clock ctx : forall chunks next,
  Forall2 (fun startAt c => (currentTime ctx (fst c) <= startAt)%Q)
    (planned_starts ctx next chunks) chunks.
Proof.
  induction chunks as [|[f item] rest IH]; intros next; constructor.
  - apply Q.le_max_r.
  - apply IH.
Qed.

Section Scheduler.

Variable decodeChunk : jsstring -> AudioBuffer.

(** C1 (amended).  Over any run of events without an interruption, each
    enqueued chunk starts at [max(nextStartTime, currentTime)] and
    [nextStartTime] moves to that start plus the chunk's duration; no start is
    before the clock reading, and playback intervals never overlap.  When
    every chunk after the first is enqueued before the virtual clock has been
    overtaken by the context clock, the starts are back to back: the first
    start plus the sum of the durations of the chunks before. *)
Theorem uninterrupted_chunks_schedule events s ctx :
  outputAudioContextRef s = Some ctx ->
  existsb interrupts events = false ->
  let chunks := chunks_of decodeChunk events in
  let starts := planned_starts ctx (nextStartTimeRef s) chunks in
  let s' := run_session decodeChunk events s in
  scheduled (trace s') = scheduled (trace s) ++ starts
  /\ nextStartTimeRef s' = planned_end ctx (nextStartTimeRef s) chunks
  /\ Forall2 (fun startAt c => (currentTime ctx (fst c) <= startAt)%Q)
       starts chunks
  /\ chained Qle (combine starts (durations chunks))
  /\ (on_time ctx (nextStartTimeRef s) chunks ->
      Forall2 Qeq starts
        (cumulative (first_start ctx (nextStartTimeRef s) chunks)
           (durations chunks))).
Proof.
  intros C I. cbv zeta.
  destruct (run_session_schedule decodeChunk ctx events s C I) as [T N].
  split; [exact T|]. split; [exact N|].
  split; [apply planned_starts_from_clock|].
  split; [apply planned_never_overlap|].
  destruct (chunks_of decodeChunk events) as [|[f item] rest]; intros L;
    [constructor|].
  cbn [planned_starts durations map cumulative snd first_start on_time] in *.
  constructor; [reflexivity|].
  apply planned_back_to_back; [reflexivity | exact L].
Qed.

(** C4.  After [stopAllPlayback] the set of sources is empty and
    [nextStartTime] is 0, and the chunk enqueued next is scheduled at the
    current clock time of the output context. *)
Theorem enqueue_after_interrupt_starts_at_clock s frames message ctx item :
  outputAudioContextRef s = Some ctx ->
  enqueued decodeChunk (Message frames message) = Some (frames, item) ->
  let interrupted_state := stopAllPlayback s in
  let s' := onmessage decodeChunk frames message interrupted_state in
  sourcesRef interrupted_state = []
  /\ nextStartTimeRef interrupted_state = 0%Q
  /\ exists startAt,
       scheduled (trace s') = scheduled (trace interrupted_state) ++ [startAt]
       /\ (startAt == currentTime ctx frames)%Q.
Proof.
  intros C E. cbv zeta.
  split; [apply stopAllPlayback_sources|].
  split; [now rewrite stopAllPlayback_frame|].
  assert (C' : outputAudioContextRef (stopAllPlayback s) = Some ctx)
    by now rewrite stopAllPlayback_frame.
  exists (Qmax (nextStartTimeRef (stopAllPlayback s)) (currentTime ctx frames)).
  destruct (onmessage_after_audio decodeChunk frames message (stopAllPlayback s))
    as (_ & _ & _ & _ & _ & ->).
  rewrite (audio_branch_enqueues _ _ _ _ _ _ E C').
  split.
  - fields. rewrite !scheduled_app. cbn [scheduled flat_map app].
    destruct (flag interrupted message);
      now rewrite ?scheduled_stops, ?app_nil_r.
  - rewrite stopAllPlayback_frame. fields.
    apply Q.max_r, currentTime_nonneg.
Qed.

Lemma planned_end_monotone ctx : forall chunks next,
  (next <= planned_end ctx next chunks)%Q.
Proof.
  induction chunks as [|[f item] rest IH]; intros next; cbn [planned_end].
  - apply Qle_refl.
  - eapply Qle_trans; [|apply IH].
    pose proof (Q.le_max_l next (currentTime ctx f)).
    pose proof (duration_nonneg item). lra.
Qed.



End Scheduler.

(** ** The handler and its returning run *)

Section HandlerFacts.

Variable decodePayload : jsstring -> Result AudioBuffer.
Variable decodeChunk : jsstring -> AudioBuffer.
Hypothesis decoded : agrees decodePayload decodeChunk.

Lemma read_audioData_returns message read :
  read_audioData message = Return read -> read = audioData message.
Proof.
  unfold read_audioData, audioData.
  destruct (serverContent message) as [content|]; [|now intros [= <-]].
  destruct (modelTurn content) as [turn|]; [|now intros [= <-]].
  destruct (parts turn); [now intros [= <-] | discriminate].
Qed.

Lemma audio_block_returns frames message s s' :
  audio_block decodePayload frames message s = (Return tt, s') ->
  s' = audio_branch decodeChunk frames message s.
Proof.
  unfold audio_block, audio_branch, bind, perform, modify, get, ret.
  destruct (read_audioData message) as [read|e] eqn:R; [|discriminate].
  apply read_audioData_returns in R. subst read.
  destruct (audioData message) as [payload|]; [|now intros [= <-]].
  destruct (truthy payload); [|now intros [= <-]].
  cbn [outputAudioContextRef setStatus].
  destruct (outputAudioContextRef s) as [ctx|]; [|now intros [= <-]].
  destruct (decodePayload payload) as [buffer|e] eqn:D; [|discriminate].
  rewrite (decoded _ _ D). now intros [= <-].
Qed.

Lemma onmessage_handler_returns frames message s s' :
  onmessage_handler decodePayload frames message s = (Return tt, s') ->
  s' = onmessage decodeChunk frames message s.
Proof.
  unfold onmessage_handler, onmessage. unfold bind at 1.
  destruct (audio_block decodePayload frames message s) as [[[]|e] a] eqn:A;
    [|discriminate].
  apply audio_block_returns in A. subst a.
  unfold bind, modify, ret.
  destruct (flag turnComplete message), (flag interrupted message);
    now intros [= <-].
Qed.

(** When the promise is rejected the statements after the audio block have
    not run: the transcript, the buffers, the sources and the calls made are
    those of before. *)
Lemma onmessage_handler_throws frames message s s' e :
  onmessage_handler decodePayload frames message s = (Throw e, s') ->
  transcript s' = transcript s
  /\ currentInputTranscriptionRef s' = currentInputTranscriptionRef s
  /\ currentOutputTranscriptionRef s' = currentOutputTranscriptionRef s
  /\ sourcesRef s' = sourcesRef s
  /\ trace s' = trace s
  /\ (s' = s \/ status s' = speaking).
Proof.
  unfold onmessage_handler. unfold bind at 1.
  destruct (audio_block decodePayload frames message s) as [[[]|e'] a] eqn:A.
  - unfold bind, modify, ret.
    destruct (flag turnComplete message), (flag interrupted message);
      discriminate.
  - intros [= <- <-]. revert A.
    unfold audio_block, bind, perform, modify, get, ret.
    destruct (read_audioData message) as [[payload|]|e0];
      [| discriminate | intros [= _ <-]; repeat split; now left].
    destruct (truthy payload); [|discriminate].
    cbn [outputAudioContextRef setStatus].
    destruct (outputAudioContextRef s) as [ctx|]; [|discriminate].
    destruct (decodePayload payload) as [buffer|e0]; [discriminate|].
    intros [= _ <-]. repeat split. now right.
Qed.

End HandlerFacts.


Lemma decoded_or_silence_agrees decodePayload :
  agrees decodePayload (decoded_or_silence decodePayload).
Proof.
  intros payload buffer H. unfold decoded_or_silence. now rewrite H.
Qed.

Section Interruption.

Variable decodeChunk : jsstring -> AudioBuffer.

Lemma ended_listener_fields source s :
  let s' := ended_listener source s in
  sourcesRef s' = remove Z.eq_dec source (sourcesRef s)
  /\ trace s' = trace s
  /\ outputAudioContextRef s' = outputAudioContextRef s
  /\ status s' = match sourcesRef s' with [] => listening | _ :: _ => status s end.
Proof.
  unfold ended_listener. fields.
  destruct (remove Z.eq_dec source (sourcesRef s)); repeat split.
Qed.

Lemma audio_branch_fields frames message s :
  let e := Message frames message in
  let a := audio_branch decodeChunk frames message s in
  outputAudioContextRef s <> None ->
  sourcesRef a = sourcesRef s ++ started_by decodeChunk e s
  /\ (forall c, In c (trace s) -> In c (trace a))
  /\ status a = match enqueued decodeChunk e with
                | Some _ => speaking
                | None => status s
                end
  /\ (enqueued decodeChunk e <> None -> started_by decodeChunk e s <> []).
Proof.
  cbv zeta. intros C. unfold started_by.
  destruct (enqueued decodeChunk (Message frames message)) as [[f item]|] eqn:E.
  - pose proof (enqueued_frames _ _ _ _ E) as F. cbn in F. subst f.
    destruct (outputAudioContextRef s) as [ctx|] eqn:C'; [|now elim C].
    rewrite (audio_branch_enqueues _ _ _ _ _ _ E C'). fields.
    repeat split; try discriminate.
    intros c H. apply in_or_app. now left.
  - rewrite audio_branch_no_chunk by exact E. rewrite app_nil_r.
    repeat split; try tauto. 
Qed.

Lemma in_session_invariant owed s :
  in_session decodeChunk owed s -> session_invariant owed s.
Proof.
  induction 1 as [owed s C S T | owed s e _ IH G].
  - unfold session_invariant, onopen. fields.
    destruct (inputAudioContextRef s); fields; rewrite S;
      (split; [exact C|]); (split; [intros x []|]);
      (split; [discriminate|]); intros source H; right; now apply T.
  - destruct IH as (C & Sub & Sp & St).
    destruct e as [frames message|source]; cbn [session_step].
    + destruct (onmessage_after_audio decodeChunk frames message s)
        as (Es & Ec & _ & _ & Esrc & Et).
      destruct (audio_branch_fields frames message s C)
        as (As & At & Ast & An).
      unfold session_invariant. rewrite Es, Ec, Esrc, Et, Ast.
      rewrite audio_branch_context.
      split; [exact C|]. split; [|split].
      * destruct (flag interrupted message); [intros x []|].
        rewrite As. apply incl_app; [|apply incl_appr, incl_refl].
        now apply incl_appl.
      * destruct (enqueued decodeChunk (Message frames message)) eqn:E.
        -- intros _ Hn. apply app_eq_nil in Hn. destruct Hn as [_ Hn].
           revert Hn. apply An. discriminate.
        -- intros Hs Hn. apply app_eq_nil in Hn. destruct Hn as [Hn _].
           now apply Sp.
      * intros source H.
        assert (K : In source (sourcesRef (audio_branch decodeChunk frames message s))
                    \/ In (source_stop source) (trace s)).
        { rewrite As. apply in_app_or in H. destruct H as [H|H].
          - destruct (St source H) as [H'|H']; [left|now right].
            apply in_or_app. now left.
          - left. apply in_or_app. now right. }
        destruct K as [K|K].
        -- destruct (flag interrupted message).
           ++ right. apply in_or_app. right. now apply in_map.
           ++ now left.
        -- right. apply in_or_app. left. now apply At.
    + destruct (ended_listener_fields source s) as (Esrc & Et & Ec & Es).
      unfold session_invariant. rewrite Esrc, Et, Ec.
      split; [exact C|]. split; [|split].
      * intros x H. apply in_remove in H. destruct H as [H Hne].
        apply in_in_remove; [exact Hne | now apply Sub].
      * intros Hs Hn. rewrite Es, Esrc in Hs.
        destruct (remove Z.eq_dec source (sourcesRef s)) as [|x rest] eqn:R;
          [discriminate|].
        assert (Hx : In x (remove Z.eq_dec source owed)).
        { assert (Hx : In x (x :: rest)) by now left.
          rewrite <- R in Hx. apply in_remove in Hx. destruct Hx as [Hx Hne].
          apply in_in_remove; [exact Hne | now apply Sub]. }
        rewrite Hn in Hx. exact Hx.
      * intros x H. apply in_remove in H. destruct H as [H Hne].
        destruct (St x H) as [H'|H']; [left|now right].
        now apply in_in_remove.
Qed.



End Interruption.

Section InterruptionHandler.

Variable decodePayload : jsstring -> Result AudioBuffer.
Variable decodeChunk : jsstring -> AudioBuffer.
Hypothesis decoded : agrees decodePayload decodeChunk.


End InterruptionHandler.

Section Transcript.

Variable decodeChunk : jsstring -> AudioBuffer.

Lemma turnComplete_branch_seals s :
  let s' := turnComplete_branch s in
  transcript s'
  = transcript s
    ++ sealed (currentInputTranscriptionRef s) (currentOutputTranscriptionRef s)
  /\ currentInputTranscriptionRef s' = []
  /\ currentOutputTranscriptionRef s' = [].
Proof.
  unfold turnComplete_branch, sealed. cbv zeta.
  destruct (truthy (trim (currentInputTranscriptionRef s))),
           (truthy (trim (currentOutputTranscriptionRef s)));
    fields; rewrite <- ?app_assoc, ?app_nil_r; repeat split.
Qed.

Lemma transcription_branch_appends message s :
  let s' := transcription_branch message s in
  currentInputTranscriptionRef s'
  = currentInputTranscriptionRef s ++ heard_user message
  /\ currentOutputTranscriptionRef s'
     = currentOutputTranscriptionRef s ++ heard_assistant message
  /\ transcript s' = transcript s.
Proof.
  unfold transcription_branch, heard_user, heard_assistant. cbv zeta.
  destruct (serverContent message) as [content|];
    [destruct (inputTranscription content), (outputTranscription content)|];
    fields; rewrite ?app_nil_r; repeat split.
Qed.

Lemma audio_branch_transcript frames message s :
  let a := audio_branch decodeChunk frames message s in
  transcript a = transcript s
  /\ currentInputTranscriptionRef a = currentInputTranscriptionRef s
  /\ currentOutputTranscriptionRef a = currentOutputTranscriptionRef s.
Proof.
  cbv zeta.
  destruct (enqueued decodeChunk (Message frames message)) as [[f item]|] eqn:E.
  - pose proof (enqueued_frames _ _ _ _ E) as F. cbn in F. subst f.
    destruct (outputAudioContextRef s) as [ctx|] eqn:C.
    + rewrite (audio_branch_enqueues _ _ _ _ _ _ E C). repeat split.
    + rewrite (audio_branch_without_context _ _ _ _ _ E C). repeat split.
  - rewrite audio_branch_no_chunk by exact E. repeat split.
Qed.

Lemma onmessage_transcript frames message s :
  let s' := onmessage decodeChunk frames message s in
  let openUser := currentInputTranscriptionRef s ++ heard_user message in
  let openAssistant :=
    currentOutputTranscriptionRef s ++ heard_assistant message in
  transcript s'
  = transcript s
    ++ (if flag turnComplete message then sealed openUser openAssistant else [])
  /\ currentInputTranscriptionRef s'
     = (if flag turnComplete message then [] else openUser)
  /\ currentOutputTranscriptionRef s'
     = (if flag turnComplete message then [] else openAssistant).
Proof.
  cbv zeta. rewrite onmessage_split. cbv zeta.
  destruct (audio_branch_transcript frames message s) as (At & Ai & Ao).
  set (a := audio_branch decodeChunk frames message s) in *.
  destruct (transcription_branch_appends message a) as (Ti & To & Tt).
  assert (K : let s' := after_audio message a in
              transcript s'
              = transcript s
                ++ (if flag turnComplete message
                    then sealed (currentInputTranscriptionRef s ++ heard_user message)
                           (currentOutputTranscriptionRef s ++ heard_assistant message)
                    else [])
              /\ currentInputTranscriptionRef s'
                 = (if flag turnComplete message then []
                    else currentInputTranscriptionRef s ++ heard_user message)
              /\ currentOutputTranscriptionRef s'
                 = (if flag turnComplete message then []
                    else currentOutputTranscriptionRef s ++ heard_assistant message)).
  { unfold after_audio. cbv zeta. destruct (flag turnComplete message).
    - destruct (turnComplete_branch_seals (transcription_branch message a))
        as (St & Si & So).
      rewrite St, Si, So, Tt, Ti, To, At, Ai, Ao. repeat split.
    - rewrite Tt, Ti, To, At, Ai, Ao, app_nil_r. repeat split. }
  cbv zeta in K.
  destruct (flag interrupted message); [|exact K].
  rewrite stopAllPlayback_frame. fields. exact K.
Qed.

Lemma sealed_nothing openUser openAssistant :
  sealed openUser openAssistant = []
  <-> trim openUser = [] /\ trim openAssistant = [].
Proof.
  unfold sealed.
  destruct (trim openUser) as [|c u], (trim openAssistant) as [|d a];
    cbn; split; intros H; try reflexivity; try discriminate;
    try (split; reflexivity); destruct H; discriminate.
Qed.

End Transcript.

Section TranscriptHandler.

Variable decodeChunk : jsstring -> AudioBuffer.

(** C2.  The turn-complete block appends to the transcript the trimmed
    user buffer, if not empty, then the trimmed assistant buffer, if not
    empty, and empties both buffers; so does a whole message with the flag
    whose handler runs to its end, on the buffers extended by the deltas it
    carries.  Nothing is appended exactly when both trimmed buffers are
    empty, and the outcome does not depend on which speaker's delta arrived
    last. *)
Theorem turnComplete_seals_user_then_assistant :
  (forall s,
     let s' := turnComplete_branch s in
     transcript s'
     = transcript s
       ++ sealed (currentInputTranscriptionRef s)
            (currentOutputTranscriptionRef s)
     /\ currentInputTranscriptionRef s' = []
     /\ currentOutputTranscriptionRef s' = [])
  /\ (forall decodePayload frames message s s',
        onmessage_handler decodePayload frames message s = (Return tt, s') ->
        let openUser := currentInputTranscriptionRef s ++ heard_user message in
        let openAssistant :=
          currentOutputTranscriptionRef s ++ heard_assistant message in
        transcript s'
        = transcript s
          ++ (if flag turnComplete message
              then sealed openUser openAssistant else [])
        /\ currentInputTranscriptionRef s'
           = (if flag turnComplete message then [] else openUser)
        /\ currentOutputTranscriptionRef s'
           = (if flag turnComplete message then [] else openAssistant))
  /\ (forall openUser openAssistant,
        sealed openUser openAssistant = []
        <-> trim openUser = [] /\ trim openAssistant = [])
  /\ (forall f1 f2 f3 u a s,
        let user_first :=
          [Message f1 (user_delta u); Message f2 (assistant_delta a);
           Message f3 turn_complete] in
        let assistant_first :=
          [Message f2 (assistant_delta a); Message f1 (user_delta u);
           Message f3 turn_complete] in
        transcript (run_session decodeChunk user_first s)
        = transcript s
          ++ sealed (currentInputTranscriptionRef s ++ u)
               (currentOutputTranscriptionRef s ++ a)
        /\ transcript (run_session decodeChunk assistant_first s)
           = transcript (run_session decodeChunk user_first s)).
Proof.
  split; [exact turnComplete_branch_seals|].
  split.
  { intros decodePayload frames message s s' H.
    rewrite (onmessage_handler_returns decodePayload
               (decoded_or_silence decodePayload)
               (decoded_or_silence_agrees decodePayload) _ _ _ _ H).
    apply onmessage_transcript. }
  split; [exact sealed_nothing|].
  intros f1 f2 f3 u a s. cbv zeta.
  assert (E : forall first second fa fb,
             (first = user_delta u /\ second = assistant_delta a)
             \/ (first = assistant_delta a /\ second = user_delta u) ->
             transcript
               (run_session decodeChunk
                  [Message fa first; Message fb second; Message f3 turn_complete] s)
             = transcript s
               ++ sealed (currentInputTranscriptionRef s ++ u)
                    (currentOutputTranscriptionRef s ++ a)).
  { intros first second fa fb H.
    cbn [run_session fold_left session_step].
    destruct (onmessage_transcript decodeChunk fa first s) as (T1 & I1 & O1).
    set (s1 := onmessage decodeChunk fa first s) in *.
    destruct (onmessage_transcript decodeChunk fb second s1) as (T2 & I2 & O2).
    set (s2 := onmessage decodeChunk fb second s1) in *.
    destruct (onmessage_transcript decodeChunk f3 turn_complete s2) as (T3 & _).
    rewrite T3, T2, I2, O2, T1, I1, O1.
    destruct H as [[-> ->]|[-> ->]]; cbn; now rewrite !app_nil_r. }
  split.
  - apply E. now left.
  - rewrite (E _ _ f2 f1) by now right. symmetry. apply E. now left.
Qed.

End TranscriptHandler.

Lemma ToInt16_congruent x : (ToInt16 x - Qtrunc x) mod 65536 = 0.
Proof.
  unfold ToInt16.
  destruct (Z.leb_spec 32768 (Qtrunc x mod 65536));
    Z.to_euclidean_division_equations; lia.
Qed.

(** C8.  The encoder's conversion truncates [sample * 32768] and reduces
    it modulo [2^16] into the int16 range; nothing clamps.  The sample 1.0
    becomes -32768: it wraps by [2^16] instead of saturating at 32767. *)
Theorem pcm_sample_wraps_at_full_scale :
  (forall x, is_int16 (pcm_sample x)
             /\ (pcm_sample x - Qtrunc (x * 32768)) mod 65536 = 0)
  /\ pcm_sample 1 = -32768
  /\ exists x, (1 <= Qabs x)%Q
               /\ pcm_sample x = Qtrunc (x * 32768) - 65536
               /\ pcm_sample x <> clamp_int16 (Qtrunc (x * 32768)).
Proof.
  split; [|split].
  - intros x. split; [apply ToInt16_is_int16 | apply ToInt16_congruent].
  - reflexivity.
  - exists 1%Q. split; [|split].
    + discriminate.
    + reflexivity.
    + discriminate.
Qed.

(** ** Worked conversations *)

(** C7 as stated fails: the sample 1.0 lies in [-1, 1] and comes back as
    -1.0. *)
Lemma roundtrip_fails_at_full_scale :
  Forall (fun x => -1 <= x /\ x <= 1)%Q [1%Q]
  /\ fromTransportEncoding (toTransportEncoding [1%Q])
     = Some [(-32768 # 32768)%Q]
  /\ ~ roundtrip_ok [1%Q].
Proof.
  split; [repeat constructor; discriminate|].
  split; [vm_compute; reflexivity|].
  intros (decoded & E & F). vm_compute in E. injection E as <-.
  inversion F as [|? ? ? ? Far _]. vm_compute in Far. discriminate Far.
Qed.

Lemma roundtrip_within_quantization_witness :
  Forall (fun x => -1 <= x /\ x < 1)%Q [(1 # 2)%Q; (-1)%Q; (32767 # 32768)%Q]
  /\ roundtrip_ok [(1 # 2)%Q; (-1)%Q; (32767 # 32768)%Q].
Proof.
  assert (H : Forall (fun x => -1 <= x /\ x < 1)%Q
                [(1 # 2)%Q; (-1)%Q; (32767 # 32768)%Q])
    by (repeat constructor; vm_compute; (discriminate || reflexivity)).
  split; [exact H | exact (roundtrip_within_quantization _ H)].
Defined.

(** C1 as stated fails: a chunk that arrives after the previous one has
    finished starts at the clock time, not at the sum of the durations. *)
Lemma late_chunk_is_not_back_to_back :
  outputAudioContextRef opened
  = Some {| contextRate := 24000; contextState := running |}
  /\ existsb interrupts late_events = false
  /\ scheduled (trace (run_session pcm_decoder late_events opened))
     = [0%Q; 120000 # 24000]
  /\ durations (chunks_of pcm_decoder late_events) = [3 # 24000; 3 # 24000]
  /\ ~ Forall2 Qeq
         (scheduled (trace (run_session pcm_decoder late_events opened)))
         (cumulative 0 (durations (chunks_of pcm_decoder late_events))).
Proof.
  split; [reflexivity|]. split; [reflexivity|].
  split; [vm_compute; reflexivity|]. split; [vm_compute; reflexivity|].
  intros H. vm_compute in H.
  inversion H as [|? ? ? ? _ Later]. inversion Later as [|? ? ? ? Second _].
  discriminate Second.
Qed.

Lemma uninterrupted_chunks_schedule_witness :
  existsb interrupts prompt_events = false
  /\ scheduled (trace (run_session pcm_decoder prompt_events opened))
     = planned_starts {| contextRate := 24000; contextState := running |} 0
         (chunks_of pcm_decoder prompt_events)
  /\ Forall2 Qeq
       (planned_starts {| contextRate := 24000; contextState := running |} 0
          (chunks_of pcm_decoder prompt_events))
       (cumulative (240 # 24000) [3 # 24000; 3 # 24000; 3 # 24000]).
Proof.
  destruct (uninterrupted_chunks_schedule pcm_decoder prompt_events opened
              {| contextRate := 24000; contextState := running |}
              eq_refl eq_refl) as (T & _ & _ & _ & B).
  split; [reflexivity|]. split; [exact T|].
  apply B. vm_compute. repeat split; discriminate.
Defined.

Lemma enqueue_after_interrupt_witness :
  sourcesRef (stopAllPlayback speaking_state) = []
  /\ nextStartTimeRef (stopAllPlayback speaking_state) = 0%Q
  /\ exists startAt,
       scheduled
         (trace (onmessage pcm_decoder 300 (chunk_message tone)
                   (stopAllPlayback speaking_state)))
       = scheduled (trace (stopAllPlayback speaking_state)) ++ [startAt]
       /\ (startAt == 300 # 24000)%Q.
Proof.
  exact (enqueue_after_interrupt_starts_at_clock pcm_decoder speaking_state 300
           (chunk_message tone)
           {| contextRate := 24000; contextState := running |}
           (pcm_decoder tone) eq_refl eq_refl).
Defined.

Lemma speaking_state_in_session : in_session pcm_decoder [0] speaking_state.
Proof.
  apply (session_event pcm_decoder [] opened first_chunk); [|exact I].
  apply (session_opened pcm_decoder [] (startConversation granted initial)).
  - discriminate.
  - reflexivity.
  - intros source [].
Defined.



Lemma turnComplete_witness :
  let message := closing_chunk tone (lit " Hello! ") in
  let s' := onmessage pcm_decoder 300 message speaking_state in
  onmessage_handler pcm_decode 300 message speaking_state = (Return tt, s')
  /\ transcript s'
     = transcript speaking_state
       ++ sealed (currentInputTranscriptionRef speaking_state
                  ++ heard_user message)
            (currentOutputTranscriptionRef speaking_state
             ++ heard_assistant message)
  /\ transcript s' = [{| speaker := Teacher; text := lit "Hello!" |}].
Proof.
  cbv zeta.
  assert (H : onmessage_handler pcm_decode 300
                (closing_chunk tone (lit " Hello! ")) speaking_state
              = (Return tt,
                 onmessage pcm_decoder 300
                   (closing_chunk tone (lit " Hello! ")) speaking_state))
    by (vm_compute; reflexivity).
  split; [exact H|]. split.
  - exact (proj1 (proj1 (proj2 (turnComplete_seals_user_then_assistant
                                  pcm_decoder))
                    pcm_decode 300%N (closing_chunk tone (lit " Hello! "))
                    speaking_state _ H)).
  - vm_compute. reflexivity.
Defined.

(** A chunk that does not decode rejects the promise of [onmessage]: the
    turn is not sealed although the message carries the flag. *)
Lemma garbled_chunk_aborts_the_handler :
  fst (onmessage_handler pcm_decode 300
         (closing_chunk garbled (lit " Hello! ")) speaking_state)
  = Throw (lit "CodecError")
  /\ transcript
       (snd (onmessage_handler pcm_decode 300
               (closing_chunk garbled (lit " Hello! ")) speaking_state))
     = [].
Proof. split; vm_compute; reflexivity. Qed.



Lemma startConversation_failure_witness :
  getUserMedia output_refused = Return {| getTracks := [1] |}
  /\ status (startConversation output_refused initial) = error
  /\ mediaStreamRef (startConversation output_refused initial)
     = Some {| getTracks := [1] |}
  /\ inputAudioContextRef (startConversation output_refused initial)
     = Some {| contextRate := 16000; contextState := running |}
  /\ sessionPromiseRef (startConversation output_refused initial) = None
  /\ trace (startConversation output_refused initial)
     = [console_error (lit "Failed to start conversation:")
          (lit "NotSupportedError")].
Proof.
  destruct (startConversation_failure_keeps_resources output_refused initial
              {| getTracks := [1] |} (lit "NotSupportedError") eq_refl eq_refl)
    as (_ & St & _ & M & P & T & Ic & _).
  split; [reflexivity|]. split; [exact St|]. split; [exact M|].
  split; [exact Ic|]. split; [exact P | exact T].
Defined.

(* ================================================================== *)
(** * Further properties of the component *)
(* ================================================================== *)

Lemma Qtrunc_opp x : Qtrunc (- x) = - Qtrunc x.
Proof.
  destruct x as [n d]. unfold Qtrunc, Qopp. cbn [Qnum Qden].
  apply Z.quot_opp_l. discriminate.
Qed.

Lemma Qtrunc_scaled n d c :
  Qtrunc ((n # d) * (c # 1)) = Z.quot (n * c) (Z.pos d).
Proof.
  unfold Qtrunc, Qmult. cbn [Qnum Qden]. now rewrite Pos.mul_1_r.
Qed.

Lemma Qtrunc_monotone x y : (x <= y)%Q -> Qtrunc x <= Qtrunc y.
Proof.
  destruct x as [a b], y as [c d]. unfold Qle, Qtrunc. cbn [Qnum Qden].
  intros H.
  pose proof (Z.quot_rem' a (Z.pos b)) as Ea.
  pose proof (Z.quot_rem' c (Z.pos d)) as Ec.
  destruct (Z.le_gt_cases 0 a) as [Ha|Ha]; destruct (Z.le_gt_cases 0 c) as [Hc|Hc].
  - rewrite !Z.quot_div_nonneg by lia.
    apply Z.div_le_lower_bound; [lia|].
    pose proof (Z.mul_div_le a (Z.pos b) ltac:(lia)).
    assert (0 <= a / Z.pos b) by (apply Z.div_pos; lia).
    nia.
  - nia.
  - pose proof (Z.quot_pos c (Z.pos d) Hc ltac:(lia)).
    pose proof (Z.quot_pos (- a) (Z.pos b) ltac:(lia) ltac:(lia)) as P.
    rewrite Z.quot_opp_l in P by lia. lia.
  - assert (Ea' : Z.quot a (Z.pos b) = - ((- a) / Z.pos b)).
    { rewrite <- Z.quot_div_nonneg by lia. rewrite Z.quot_opp_l by lia. lia. }
    assert (Ec' : Z.quot c (Z.pos d) = - ((- c) / Z.pos d)).
    { rewrite <- Z.quot_div_nonneg by lia. rewrite Z.quot_opp_l by lia. lia. }
    rewrite Ea', Ec'.
    enough ((- c) / Z.pos d <= (- a) / Z.pos b) by lia.
    apply Z.div_le_lower_bound; [lia|].
    pose proof (Z.mul_div_le (- c) (Z.pos d) ltac:(lia)).
    assert (0 <= (- c) / Z.pos d) by (apply Z.div_pos; lia).
    nia.
Qed.

Lemma pcm_sample_in_range x :
  (-1 <= x)%Q -> (x < 1)%Q -> pcm_sample x = Qtrunc (x * 32768).
Proof.
  intros Hlo Hhi. unfold pcm_sample. apply ToInt16_in_range. unfold is_int16.
  enough (-32768 <= Qtrunc (x * 32768) < 32768) by lia.
  apply Qtrunc_between; [lia| |]; unfold inject_Z; lra.
Qed.

(** X1.  A sample that lies on the int16 grid, [k/32768] with [k] in the
    int16 range, is encoded as [k]: the encoder loses nothing on values a
    16-bit decoder can produce. *)
Theorem pcm_sample_exact_on_grid k :
  -32768 <= k <= 32767 -> pcm_sample (k # 32768) = k.
Proof.
  intros Hk. unfold pcm_sample.
  assert (E : Qtrunc ((k # 32768) * 32768) = k).
  { rewrite Qtrunc_scaled. apply Z.quot_mul. discriminate. }
  rewrite ToInt16_in_range; [exact E|]. unfold is_int16. now rewrite E.
Qed.

(** X2.  Strictly inside (-1, 1) the encoder is odd: negating the sample
    negates the int16 value (truncation is towards zero). *)
Theorem pcm_sample_odd x :
  (-1 < x)%Q -> (x < 1)%Q -> pcm_sample (- x) = - pcm_sample x.
Proof.
  intros Hlo Hhi.
  rewrite !pcm_sample_in_range by lra.
  rewrite <- Qtrunc_opp. destruct x as [n d].
  unfold Qtrunc, Qmult, Qopp. cbn [Qnum Qden]. f_equal. ring.
Qed.

(** X3.  On [-1, 1) the encoder preserves order. *)
Theorem pcm_sample_monotone x y :
  (-1 <= x)%Q -> (x <= y)%Q -> (y < 1)%Q -> pcm_sample x <= pcm_sample y.
Proof.
  intros Hlo Hxy Hhi.
  rewrite !pcm_sample_in_range by lra.
  apply Qtrunc_monotone. lra.
Qed.

(** X4.  The byte view of a block has two bytes per sample, each in 0..255,
    and read back as int16, low byte first, it gives the encoded samples. *)
Theorem onaudioprocess_byte_view inputData :
  let bytes := Uint8Array_of_Int16Array (pcm_samples inputData) in
  length bytes = (2 * length inputData)%nat
  /\ Forall is_byte bytes
  /\ Int16Array_of_bytes bytes = Some (pcm_samples inputData).
Proof.
  cbv zeta. split; [|split].
  - unfold pcm_samples. induction inputData as [|x rest IH]; [reflexivity|].
    cbn [map Uint8Array_of_Int16Array flat_map int16_bytes app length] in *.
    unfold Uint8Array_of_Int16Array in IH. rewrite IH. lia.
  - apply Uint8Array_bytes.
  - apply Int16Array_of_Uint8Array. unfold pcm_samples.
    apply Forall_map, Forall_forall. intros x _. apply ToInt16_is_int16.
Qed.

Lemma pcm_sample_odd_witness :
  (-1 < 1 # 3)%Q /\ (1 # 3 < 1)%Q
  /\ pcm_sample (- (1 # 3)) = - pcm_sample (1 # 3).
Proof.
  assert (L : (-1 < 1 # 3)%Q) by reflexivity.
  assert (U : (1 # 3 < 1)%Q) by reflexivity.
  split; [exact L|]. split; [exact U|]. exact (pcm_sample_odd (1 # 3) L U).
Defined.

Lemma pcm_sample_exact_witness :
  -32768 <= -12345 <= 32767 /\ pcm_sample (-12345 # 32768) = -12345.
Proof.
  assert (H : -32768 <= -12345 <= 32767) by lia.
  split; [exact H | exact (pcm_sample_exact_on_grid (-12345) H)].
Defined.

Lemma pcm_sample_monotone_witness :
  (-1 <= - (1 # 2))%Q /\ (- (1 # 2) <= 1 # 3)%Q /\ (1 # 3 < 1)%Q
  /\ pcm_sample (- (1 # 2)) <= pcm_sample (1 # 3).
Proof.
  assert (A : (-1 <= - (1 # 2))%Q) by (unfold Qle; cbn; lia).
  assert (B : (- (1 # 2) <= 1 # 3)%Q) by (unfold Qle; cbn; lia).
  assert (C : (1 # 3 < 1)%Q) by reflexivity.
  split; [exact A|]. split; [exact B|]. split; [exact C|].
  exact (pcm_sample_monotone _ _ A B C).
Defined.

(** X5.  [stopAllPlayback] calls [stop()] on every registered source, in
    insertion order, empties the set and resets [nextStartTime]; every other
    field is left as it was.  Deleting the current element while iterating
    skips none. *)
Theorem stopAllPlayback_stops_each_source s :
  stopAllPlayback s
  = set_nextStartTimeRef 0%Q
      (set_sourcesRef []
         (set_trace (trace s ++ map source_stop (sourcesRef s)) s)).
Proof. apply stopAllPlayback_frame. Qed.

Lemma context_release_open ref c :
  In c (context_release ref) ->
  exists ctx, c = context_close ctx /\ ref = Some ctx /\ contextState ctx <> closed.
Proof.
  unfold context_release. destruct ref as [ctx|]; [|intros []].
  destruct (contextState ctx) eqn:E; intros H; try destruct H as [<-|[]];
    try destruct H; exists ctx; repeat split; congruence.
Qed.

(** X6.  [cleanUpAudio] makes exactly the release calls of [release_calls],
    never closes a context that is already closed, leaves status, session
    promise and transcript alone, and a second run changes nothing. *)
Theorem cleanUpAudio_releases_once s :
  trace (cleanUpAudio s) = trace s ++ release_calls s
  /\ cleanUpAudio (cleanUpAudio s) = cleanUpAudio s
  /\ status (cleanUpAudio s) = status s
  /\ sessionPromiseRef (cleanUpAudio s) = sessionPromiseRef s
  /\ transcript (cleanUpAudio s) = transcript s
  /\ forall ctx, In (context_close ctx) (release_calls s) ->
                 contextState ctx <> closed.
Proof.
  split; [now rewrite cleanUpAudio_frame|].
  split.
  { rewrite (cleanUpAudio_frame (cleanUpAudio s)).
    rewrite (cleanUpAudio_frame s). unfold release_calls. fields. cbn.
    now rewrite app_nil_r. }
  rewrite cleanUpAudio_frame. fields. repeat split.
  intros ctx H. unfold release_calls in H.
  repeat (apply in_app_or in H; destruct H as [H|H]).
  - apply in_map_iff in H. destruct H as (x & Hx & _). discriminate.
  - destruct (mediaStreamRef s); [|destruct H].
    apply in_map_iff in H. destruct H as (x & Hx & _). discriminate.
  - destruct (scriptProcessorRef s); [|destruct H].
    destruct H as [H|[]]. discriminate.
  - apply context_release_open in H. destruct H as (c & E & _ & N).
    injection E as ->. exact N.
  - apply context_release_open in H. destruct H as (c & E & _ & N).
    injection E as ->. exact N.
Qed.

(** X7.  Whatever became of the session promise (fulfilled, with a [close()]
    that returns or throws, rejected, or absent), [stopConversation] runs
    the whole clean-up after the session calls; [session.close()] is called
    exactly when the promise was fulfilled; transcript and error message
    stay. *)
Theorem stopConversation_always_cleans_up s :
  trace (stopConversation s)
  = trace s ++ session_calls (sessionPromiseRef s) ++ release_calls s
  /\ (In session_close (session_calls (sessionPromiseRef s))
      <-> exists session, sessionPromiseRef s = Some (Return session))
  /\ transcript (stopConversation s) = transcript s
  /\ errorMessage (stopConversation s) = errorMessage s.
Proof.
  rewrite stopConversation_frame, cleanUpAudio_frame. fields.
  split; [unfold release_calls; fields; now rewrite <- app_assoc|].
  split; [|split; reflexivity].
  unfold session_calls. destruct (sessionPromiseRef s) as [[session|e]|].
  - split; [intros _; now exists session | intros _; now left].
  - split; [intros [H|[]]; discriminate | intros [x H]; discriminate].
  - split; [intros [] | intros [x H]; discriminate].
Qed.

(** X8.  [onclose] releases the audio resources but keeps [sessionPromiseRef],
    and it tests the status captured by the closure: when the conversation
    was started from [idle] the current status is left as it is, otherwise
    it becomes [idle]. *)
Theorem onclose_keeps_stale_status captured s :
  let s' := onclose captured s in
  status s' = match captured with idle => status s | _ => idle end
  /\ sessionPromiseRef s' = sessionPromiseRef s
  /\ mediaStreamRef s' = None /\ scriptProcessorRef s' = None
  /\ inputAudioContextRef s' = None /\ outputAudioContextRef s' = None
  /\ sourcesRef s' = [] /\ nextStartTimeRef s' = 0%Q
  /\ trace s'
     = trace s ++ [console_log (lit "Session closed.")] ++ release_calls s.
Proof.
  unfold onclose. cbv zeta. rewrite cleanUpAudio_frame.
  destruct captured; fields; unfold release_calls; fields;
    rewrite <- ?app_assoc; repeat split.
Qed.

(** X9.  [onclose] after [stopConversation] only logs; [stopConversation]
    after [onclose] only makes the session calls.  Neither order releases an
    audio resource twice, and both end [idle]. *)
Theorem stop_and_close_do_not_release_twice captured s :
  trace (onclose captured (stopConversation s))
  = trace (stopConversation s) ++ [console_log (lit "Session closed.")]
  /\ trace (stopConversation (onclose captured s))
     = trace (onclose captured s) ++ session_calls (sessionPromiseRef s)
  /\ status (onclose captured (stopConversation s)) = idle
  /\ status (stopConversation (onclose captured s)) = idle.
Proof.
  unfold onclose. cbv zeta.
  rewrite !stopConversation_frame, !cleanUpAudio_frame.
  destruct captured; fields; unfold release_calls; fields; cbn [map app];
    rewrite ?app_nil_r; repeat split.
Qed.

(** X10.  When every call of the [try] block returns, [startConversation]
    clears transcript and error message, sets [connecting], stores the
    stream, both contexts and the session promise, and changes nothing
    else: no call is logged and the scheduler is not reset. *)
Theorem startConversation_success env s stream inputCtx outputCtx promise :
  start_succeeds env stream inputCtx outputCtx promise ->
  startConversation env s
  = set_sessionPromiseRef (Some promise)
      (set_outputAudioContextRef (Some outputCtx)
         (set_inputAudioContextRef (Some inputCtx)
            (set_mediaStreamRef (Some stream)
               (setStatus connecting
                  (setErrorMessage [] (setTranscript [] s)))))).
Proof.
  intros (H1 & H2 & H3 & H4 & H5).
  unfold startConversation, startConversation_body, startConversation_try.
  run_handler. rewrite H1, H2, H3, H4, H5. reflexivity.
Qed.

(** X11.  When [getUserMedia] throws, nothing is acquired: the state is the
    one before, with the transcript cleared, the failure logged, the error
    message set and the status [error]; the status text shown is the error
    message after [Error: ]. *)
Theorem startConversation_microphone_refused env s message :
  getUserMedia env = Throw message ->
  let s' := startConversation env s in
  s' = setStatus error
         (setErrorMessage
            (lit "Failed to start: " ++ message
             ++ lit ". Make sure microphone access is allowed.")
            (call (console_error (lit "Failed to start conversation:") message)
               (setTranscript [] s)))
  /\ getStatusText s'
     = lit "Error: " ++ lit "Failed to start: " ++ message
       ++ lit ". Make sure microphone access is allowed.".
Proof.
  intros H.
  unfold startConversation, startConversation_body, startConversation_try,
    startConversation_catch, getStatusText.
  run_handler. rewrite H. destruct s; split; reflexivity.
Qed.

(** X12.  [startConversation] never gives a resource back: whatever the
    environment answers it logs at most an error, so a stream or context
    held before the call is overwritten without being stopped or closed.  It
    always clears the transcript, ends [connecting] or [error], and leaves
    sources, [nextStartTime] and the script processor alone. *)
Theorem startConversation_releases_nothing env s :
  let s' := startConversation env s in
  (exists logged, trace s' = trace s ++ logged
                  /\ forallb (fun c => negb (is_release c)) logged = true)
  /\ transcript s' = []
  /\ (status s' = connecting \/ status s' = error)
  /\ sourcesRef s' = sourcesRef s
  /\ nextStartTimeRef s' = nextStartTimeRef s
  /\ scriptProcessorRef s' = scriptProcessorRef s.
Proof.
  unfold startConversation, startConversation_body, startConversation_try,
    startConversation_catch.
  destruct env as [mic client ictx octx conn].
  destruct mic as [m|e0]; [destruct client as [u|e1]; [destruct ictx as [i|e2];
    [destruct octx as [o|e3]; [destruct conn as [p|e4]|]|]|]|];
    run_handler;
    (split; [first [ exists []; rewrite app_nil_r; now split
                   | eexists [_]; now split ]|]);
    repeat split; auto.
Qed.

Section Restart.

Variable decodeChunk : jsstring -> AudioBuffer.

(** X13.  [startConversation] does not reset the scheduler itself, but after
    [stopConversation] or [onclose] a new start finds [nextStartTime] at 0
    and no source registered. *)
Theorem restart_begins_with_fresh_scheduler env captured s :
  let after_stop := startConversation env (stopConversation s) in
  let after_close := startConversation env (onclose captured s) in
  nextStartTimeRef after_stop = 0%Q /\ sourcesRef after_stop = []
  /\ nextStartTimeRef after_close = 0%Q /\ sourcesRef after_close = [].
Proof.
  cbv zeta.
  unfold startConversation, startConversation_body, startConversation_try,
    startConversation_catch, onclose.
  rewrite stopConversation_frame, !cleanUpAudio_frame.
  destruct env as [mic client ictx octx conn].
  destruct captured;
  (destruct mic as [m|e0]; [destruct client as [u|e1]; [destruct ictx as [i|e2];
    [destruct octx as [o|e3]; [destruct conn as [p|e4]|]|]|]|]);
    run_handler; repeat split.
Qed.

(** X14.  A message without audio payload (absent, or the empty string)
    leaves status, node counter and schedule alone; unless it interrupts it
    leaves [nextStartTime], the sources and the trace alone too. *)
Theorem message_without_audio_leaves_playback frames message s :
  enqueued decodeChunk (Message frames message) = None ->
  let s' := onmessage decodeChunk frames message s in
  status s' = status s
  /\ created s' = created s
  /\ scheduled (trace s') = scheduled (trace s)
  /\ (flag interrupted message = false ->
      nextStartTimeRef s' = nextStartTimeRef s
      /\ sourcesRef s' = sourcesRef s /\ trace s' = trace s).
Proof.
  intros E. cbv zeta.
  destruct (onmessage_after_audio decodeChunk frames message s)
    as (Es & _ & Ec & En & Esrc & Et).
  rewrite (audio_branch_no_chunk decodeChunk _ _ _ E) in *.
  split; [exact Es|]. split; [exact Ec|]. split.
  - rewrite Et, scheduled_app.
    destruct (flag interrupted message);
      now rewrite ?scheduled_stops, ?app_nil_r.
  - intros F. rewrite F in *. rewrite app_nil_r in Et. now repeat split.
Qed.

(** X15.  When the output context is gone, an audio chunk still sets the
    status to [speaking] but schedules nothing and creates no node. *)
Theorem chunk_without_output_context frames message s chunk :
  enqueued decodeChunk (Message frames message) = Some chunk ->
  outputAudioContextRef s = None ->
  let s' := onmessage decodeChunk frames message s in
  status s' = speaking
  /\ scheduled (trace s') = scheduled (trace s)
  /\ created s' = created s
  /\ (flag interrupted message = false ->
      nextStartTimeRef s' = nextStartTimeRef s
      /\ sourcesRef s' = sourcesRef s).
Proof.
  intros E C. cbv zeta.
  destruct (onmessage_after_audio decodeChunk frames message s)
    as (Es & _ & Ec & En & Esrc & Et).
  rewrite (audio_branch_without_context decodeChunk _ _ _ _ E C) in *.
  fields. split; [exact Es|]. split; [|split; [exact Ec|]].
  - rewrite Et, scheduled_app.
    destruct (flag interrupted message);
      now rewrite ?scheduled_stops, ?app_nil_r.
  - intros F. rewrite F in *. now split.
Qed.

End Restart.

Lemma trimStart_starts_clean s : starts_clean (trimStart s) = true.
Proof.
  induction s as [|c rest IH]; [reflexivity|].
  cbn [trimStart]. destruct (is_white_space c) eqn:E; [exact IH|].
  cbn [starts_clean]. now rewrite E.
Qed.

Lemma trimStart_suffix s : exists blank, s = blank ++ trimStart s.
Proof.
  induction s as [|c rest [blank IH]]; [now exists []|].
  cbn [trimStart]. destruct (is_white_space c).
  - exists (c :: blank). cbn. now rewrite <- IH.
  - now exists [].
Qed.

Lemma trimEnd_prefix s : exists blank, s = trimEnd s ++ blank.
Proof.
  unfold trimEnd. destruct (trimStart_suffix (rev s)) as [blank E].
  exists (rev blank). rewrite <- rev_app_distr, <- E. now rewrite rev_involutive.
Qed.

Lemma trim_clean s :
  starts_clean (trim s) = true /\ starts_clean (rev (trim s)) = true.
Proof.
  unfold trim. split.
  - pose proof (trimStart_starts_clean s) as H.
    destruct (trimEnd_prefix (trimStart s)) as [blank E].
    destruct (trimEnd (trimStart s)) as [|c t]; [reflexivity|].
    rewrite E in H. exact H.
  - unfold trimEnd. rewrite rev_involutive. apply trimStart_starts_clean.
Qed.

Lemma sealed_clean openUser openAssistant :
  Forall clean_entry (sealed openUser openAssistant).
Proof.
  unfold sealed. apply Forall_app. split.
  - destruct (trim openUser) as [|c t] eqn:E; cbn [truthy]; constructor;
      [|constructor].
    pose proof (trim_clean openUser) as [H1 H2]. rewrite E in H1, H2.
    unfold clean_entry. cbn [text]. repeat split; [discriminate|exact H1|exact H2].
  - destruct (trim openAssistant) as [|c t] eqn:E; cbn [truthy]; constructor;
      [|constructor].
    pose proof (trim_clean openAssistant) as [H1 H2]. rewrite E in H1, H2.
    unfold clean_entry. cbn [text]. repeat split; [discriminate|exact H1|exact H2].
Qed.

Section Conversations.

Variable decodeChunk : jsstring -> AudioBuffer.

Lemma session_step_transcript s e :
  exists added,
    transcript (session_step decodeChunk s e) = transcript s ++ added
    /\ Forall clean_entry added.
Proof.
  destruct e as [frames message|source]; cbn [session_step].
  - destruct (onmessage_transcript decodeChunk frames message s) as (T & _).
    rewrite T. eexists. split; [reflexivity|].
    destruct (flag turnComplete message); [apply sealed_clean | constructor].
  - exists []. rewrite app_nil_r. split; [|constructor].
    unfold ended_listener. fields.
    destruct (remove Z.eq_dec source (sourcesRef s)); reflexivity.
Qed.

Lemma run_session_transcript events : forall s,
  exists added,
    transcript (run_session decodeChunk events s) = transcript s ++ added
    /\ Forall clean_entry added.
Proof.
  induction events as [|e events IH]; intros s.
  - exists []. rewrite app_nil_r. split; [reflexivity | constructor].
  - cbn [run_session fold_left].
    destruct (session_step_transcript s e) as (first & E1 & C1).
    destruct (IH (session_step decodeChunk s e)) as (more & E2 & C2).
    exists (first ++ more). split.
    + unfold run_session in E2. rewrite E2, E1. now rewrite app_assoc.
    + apply Forall_app. now split.
Qed.

Lemma startConversation_transcript env s :
  transcript (startConversation env s) = [].
Proof.
  unfold startConversation, startConversation_body, startConversation_try,
    startConversation_catch.
  destruct env as [mic client ictx octx conn].
  destruct mic as [m|e0]; [destruct client as [u|e1]; [destruct ictx as [i|e2];
    [destruct octx as [o|e3]; [destruct conn as [p|e4]|]|]|]|];
    run_handler; reflexivity.
Qed.

Lemma onopen_transcript s : transcript (onopen s) = transcript s.
Proof. unfold onopen. fields. destruct (inputAudioContextRef s); reflexivity. Qed.

(** X16.  Session events only append to the transcript, and every entry
    appended has a non-empty text that neither starts nor ends with white
    space; hence the whole transcript of a conversation is made of such
    entries, [startConversation] having cleared it. *)
Theorem transcript_only_grows_by_clean_entries :
  (forall events s,
     exists added,
       transcript (run_session decodeChunk events s) = transcript s ++ added
       /\ Forall clean_entry added)
  /\ (forall env events s,
        Forall clean_entry
          (transcript
             (run_session decodeChunk events
                (onopen (startConversation env s))))).
Proof.
  split; [intros events s; apply run_session_transcript|].
  intros env events s.
  destruct (run_session_transcript events (onopen (startConversation env s)))
    as (added & E & C).
  rewrite E, onopen_transcript, startConversation_transcript. exact C.
Qed.

(** In an open conversation a registered source means the status is
    [speaking]. *)
Lemma in_session_playing owed s :
  in_session decodeChunk owed s -> sourcesRef s <> [] -> status s = speaking.
Proof.
  induction 1 as [owed s C S T | owed s e R IH G].
  - unfold onopen. fields.
    destruct (inputAudioContextRef s); fields; rewrite S; intros N; now elim N.
  - pose proof (in_session_invariant decodeChunk _ _ R) as (C & _).
    destruct e as [frames message|source]; cbn [session_step].
    + destruct (onmessage_after_audio decodeChunk frames message s)
        as (Es & _ & _ & _ & Esrc & _).
      destruct (audio_branch_fields decodeChunk frames message s C)
        as (As & _ & Ast & An).
      rewrite Es, Esrc, Ast.
      destruct (flag interrupted message); [intros N; now elim N|].
      destruct (enqueued decodeChunk (Message frames message)) eqn:E;
        [reflexivity|].
      unfold started_by in As. rewrite E, app_nil_r in As. rewrite As.
      exact IH.
    + destruct (ended_listener_fields source s) as (Esrc & _ & _ & Es).
      rewrite Es, Esrc.
      destruct (remove Z.eq_dec source (sourcesRef s)) as [|x rest] eqn:Rm;
        [intros N; now elim N|].
      intros _. apply IH. intros Hn. rewrite Hn in Rm. discriminate.
Qed.

(** X17.  In an open conversation, while a source is registered the status is
    [speaking]; every registered source is still owed its [ended]
    notification, and the output context exists. *)
Theorem registered_source_means_speaking owed s :
  in_session decodeChunk owed s ->
  (sourcesRef s <> [] -> status s = speaking)
  /\ incl (sourcesRef s) owed
  /\ outputAudioContextRef s <> None.
Proof.
  intros R. split; [exact (in_session_playing owed s R)|].
  destruct (in_session_invariant decodeChunk _ _ R) as (C & Sub & _).
  now split.
Qed.

Lemma run_ended_sources notified : forall s,
  sourcesRef (run_session decodeChunk (map Ended notified) s)
  = fold_left (fun acc source => remove Z.eq_dec source acc) notified
      (sourcesRef s).
Proof.
  induction notified as [|x rest IH]; intros s; [reflexivity|].
  cbn [map run_session fold_left session_step].
  fold (run_session decodeChunk (map Ended rest) (ended_listener x s)).
  rewrite IH. now destruct (ended_listener_fields x s) as (-> & _).
Qed.

(** X18.  Once the [ended] notification of every registered source has been
    delivered, in any order and possibly with others, the set is empty and
    the status is [listening]; the notifications change neither the trace
    nor [nextStartTime]. *)
Theorem playback_drained_returns_to_listening notified s :
  notified <> [] ->
  incl (sourcesRef s) notified ->
  let s' := run_session decodeChunk (map Ended notified) s in
  sourcesRef s' = [] /\ status s' = listening /\ trace s' = trace s
  /\ nextStartTimeRef s' = nextStartTimeRef s.
Proof.
  intros N Sub. cbv zeta.
  assert (E : sourcesRef (run_session decodeChunk (map Ended notified) s) = []).
  { rewrite run_ended_sources.
    destruct (fold_left (fun acc source => remove Z.eq_dec source acc)
                notified (sourcesRef s)) as [|x rest] eqn:F;
      [reflexivity|].
    assert (H : In x (x :: rest)) by now left.
    rewrite <- F in H. apply fold_remove_subset in H. destruct H as [H1 H2].
    elim H2. now apply Sub. }
  split; [exact E|].
  destruct (exists_last N) as (front & final & ->).
  rewrite map_app in *. unfold run_session in *. rewrite fold_left_app in *.
  cbn [map fold_left session_step] in *.
  set (before := fold_left (session_step decodeChunk) (map Ended front) s) in *.
  destruct (ended_listener_fields final before) as (Esrc & Et & _ & Es).
  rewrite Esrc in Es. rewrite Esrc in E. rewrite E in Es.
  split; [exact Es|].
  assert (K : forall l s0,
             trace (fold_left (session_step decodeChunk) (map Ended l) s0)
             = trace s0
             /\ nextStartTimeRef
                  (fold_left (session_step decodeChunk) (map Ended l) s0)
                = nextStartTimeRef s0).
  { induction l as [|y l IHl]; intros s0; [now split|].
    cbn [map fold_left session_step].
    destruct (IHl (ended_listener y s0)) as [-> ->].
    unfold ended_listener. fields.
    destruct (remove Z.eq_dec y (sourcesRef s0)); now split. }
  destruct (K front s) as [Kt Kn]. fold before in Kt, Kn.
  split; [now rewrite Et|].
  unfold ended_listener. fields.
  destruct (remove Z.eq_dec final (sourcesRef before)); exact Kn.
Qed.

End Conversations.

(** X19.  After a successful start and [onopen] the status is [listening]
    and the script processor exists; [stopConversation] then closes the
    session, stops every track of the stream, disconnects the processor and
    closes both contexts, each once, and leaves nothing held. *)
Theorem conversation_releases_what_it_acquired
    env s stream inputCtx outputCtx promise :
  start_succeeds env stream inputCtx outputCtx promise ->
  let live := onopen (startConversation env s) in
  status live = listening
  /\ scriptProcessorRef live = Some {| bufferSize := 4096 |}
  /\ trace live = trace s
  /\ trace (stopConversation live)
     = trace s ++ session_calls (Some promise)
       ++ map source_stop (sourcesRef s)
       ++ map track_stop (getTracks stream)
       ++ [scriptProcessor_disconnect]
       ++ context_release (Some inputCtx)
       ++ context_release (Some outputCtx)
  /\ released (stopConversation live)
  /\ status (stopConversation live) = idle.
Proof.
  intros (H1 & H2 & H3 & H4 & H5). cbv zeta.
  rewrite stopConversation_frame, cleanUpAudio_frame.
  unfold startConversation, startConversation_body, startConversation_try,
    onopen, released, release_calls.
  run_handler. rewrite H1, H2, H3, H4, H5. fields. cbn -[context_release].
  rewrite <- !app_assoc. repeat split.
Qed.

Lemma status_eqb_eq a b : status_eqb a b = true <-> a = b.
Proof. destruct a, b; cbn; split; (discriminate || reflexivity). Qed.

(** X20.  The start button is shown exactly in [idle] and [error]; a click
    while [connecting] does nothing; a click while [listening] or [speaking]
    is [stopConversation] and leads to the start button with everything
    released; a click after a stop never leads to the stop button. *)
Theorem control_surface :
  (forall s, renderControlButton s = start_button
             <-> status s = idle \/ status s = error)
  /\ (forall env s, status s = connecting -> click env s = s)
  /\ (forall env s,
        status s = listening \/ status s = speaking ->
        click env s = stopConversation s
        /\ renderControlButton (click env s) = start_button
        /\ released (click env s))
  /\ (forall env s,
        renderControlButton (click env (stopConversation s)) <> stop_button).
Proof.
  split; [|split; [|split]].
  - intros s. unfold renderControlButton.
    destruct (status s); cbn; split; intros H; try discriminate;
      try reflexivity; auto; destruct H; discriminate.
  - intros env s H. unfold click, renderControlButton. now rewrite H.
  - intros env s H. unfold click.
    assert (E : renderControlButton s = stop_button)
      by (unfold renderControlButton; destruct H as [-> | ->]; reflexivity).
    rewrite E. split; [reflexivity|]. split.
    + unfold renderControlButton. now rewrite stopConversation_status.
    + apply stopConversation_released.
  - intros env s. unfold click at 1.
    assert (E : renderControlButton (stopConversation s) = start_button)
      by (unfold renderControlButton; now rewrite stopConversation_status).
    rewrite E.
    unfold renderControlButton, startConversation, startConversation_body,
      startConversation_try, startConversation_catch.
    destruct env as [mic client ictx octx conn].
    destruct mic as [m|e0]; [destruct client as [u|e1]; [destruct ictx as [i|e2];
      [destruct octx as [o|e3]; [destruct conn as [p|e4]|]|]|]|];
      run_handler; discriminate.
Qed.

Lemma startConversation_success_witness :
  start_succeeds granted {| getTracks := [1] |}
    {| contextRate := 16000; contextState := running |}
    {| contextRate := 24000; contextState := running |}
    (Return {| close := Return tt |})
  /\ status (startConversation granted initial) = connecting
  /\ mediaStreamRef (startConversation granted initial)
     = Some {| getTracks := [1] |}.
Proof.
  assert (H : start_succeeds granted {| getTracks := [1] |}
                {| contextRate := 16000; contextState := running |}
                {| contextRate := 24000; contextState := running |}
                (Return {| close := Return tt |}))
    by (repeat split).
  split; [exact H|].
  rewrite (startConversation_success granted initial _ _ _ _ H).
  split; reflexivity.
Defined.

Lemma startConversation_microphone_refused_witness :
  getUserMedia microphone_refused = Throw (lit "Permission denied")
  /\ getStatusText (startConversation microphone_refused initial)
     = lit "Error: Failed to start: Permission denied. Make sure microphone access is allowed.".
Proof.
  split; [reflexivity|].
  destruct (startConversation_microphone_refused microphone_refused initial
              (lit "Permission denied") eq_refl) as [_ T].
  rewrite T. reflexivity.
Defined.

Lemma message_without_audio_witness :
  enqueued pcm_decoder (Message 300 (user_delta (lit "Hi"))) = None
  /\ status (onmessage pcm_decoder 300 (user_delta (lit "Hi")) speaking_state)
     = status speaking_state.
Proof.
  split; [reflexivity|].
  exact (proj1 (message_without_audio_leaves_playback pcm_decoder 300
                  (user_delta (lit "Hi")) speaking_state eq_refl)).
Defined.

Lemma chunk_without_output_context_witness :
  outputAudioContextRef initial = None
  /\ status (onmessage pcm_decoder 300 (chunk_message tone) initial) = speaking
  /\ scheduled (trace (onmessage pcm_decoder 300 (chunk_message tone) initial))
     = scheduled (trace initial).
Proof.
  split; [reflexivity|].
  destruct (chunk_without_output_context pcm_decoder 300 (chunk_message tone)
              initial (300%N, pcm_decoder tone) eq_refl eq_refl)
    as (S & T & _).
  split; [exact S | exact T].
Defined.

Lemma registered_source_means_speaking_witness :
  sourcesRef speaking_state <> [] /\ status speaking_state = speaking.
Proof.
  assert (N : sourcesRef speaking_state <> [])
    by (vm_compute; discriminate).
  split; [exact N|].
  exact (proj1 (registered_source_means_speaking pcm_decoder [0] speaking_state
                  speaking_state_in_session) N).
Defined.

Lemma playback_drained_witness :
  incl (sourcesRef speaking_state) [0]
  /\ status (run_session pcm_decoder (map Ended [0]) speaking_state) = listening.
Proof.
  assert (Sub : incl (sourcesRef speaking_state) [0])
    by (vm_compute; intros a H; exact H).
  split; [exact Sub|].
  destruct (playback_drained_returns_to_listening pcm_decoder [0]
              speaking_state ltac:(discriminate) Sub) as (_ & L & _).
  exact L.
Defined.

Lemma conversation_releases_witness :
  trace (stopConversation (onopen (startConversation granted initial)))
  = [session_close; track_stop 1; scriptProcessor_disconnect;
     context_close {| contextRate := 16000; contextState := running |};
     context_close {| contextRate := 24000; contextState := running |}].
Proof.
  destruct (conversation_releases_what_it_acquired granted initial
              {| getTracks := [1] |}
              {| contextRate := 16000; contextState := running |}
              {| contextRate := 24000; contextState := running |}
              (Return {| close := Return tt |})
              ltac:(repeat split)) as (_ & _ & _ & T & _).
  rewrite T. reflexivity.
Defined.
